(** * merge_m3u.py: block parser, merger and serializer of M3U playlists

    A shallow embedding of [src/merge_m3u.py].

    - Text is a [string]; one [ascii] stands for one code point, so the
      model covers documents whose code points are below 256.  On that
      range [lower_char] and [is_space] follow Python's [str.lower] and
      [str.strip].
    - [OrderedDict] is an association list in insertion order.
    - [lines[i]] is a partial read ([getitem]); [IndexError] is a possible
      result of every function that indexes, and [while] loops take fuel.
    - [print] calls and the two counters that only feed them are left out.
    - The network is a function [urlopen] from URL to the decoded body, or
      [None] when [urllib] raises. *)

From Stdlib Require Import List String Ascii Bool Arith Lia.
From Stdlib Require Import DecimalString DecimalNat.
Import ListNotations.

Local Open Scope list_scope.
Local Open Scope string_scope.

(* ================================================================== *)
(** ** Python string primitives *)

Module PyStr.

Definition dquote : string := String "034"%char EmptyString.
Definition nl_char : ascii := "010"%char.
Definition nl : string := String nl_char EmptyString.

(** [bool(s)]: a string is truthy when it is not empty. *)
Definition truthy (s : string) : bool :=
  match s with
  | EmptyString => false
  | String _ _ => true
  end.

(** [str.lower] on one code point below 256: A-Z, and the Latin-1 capitals
    U+00C0..U+00DE except the multiplication sign U+00D7. *)
Definition lower_char (c : ascii) : ascii :=
  let n := nat_of_ascii c in
  if ((65 <=? n) && (n <=? 90))%nat
     || ((192 <=? n)%nat && (n <=? 222)%nat && negb (n =? 215)%nat)
  then ascii_of_nat (n + 32)
  else c.

Fixpoint lower (s : string) : string :=
  match s with
  | EmptyString => EmptyString
  | String c s' => String (lower_char c) (lower s')
  end.

(** Code points that [str.strip()] removes: U+0009..U+000D, U+001C..U+0020,
    U+0085 and U+00A0. *)
Definition is_space (c : ascii) : bool :=
  let n := nat_of_ascii c in
  ((9 <=? n) && (n <=? 13))%nat || ((28 <=? n) && (n <=? 32))%nat
  || (n =? 133)%nat || (n =? 160)%nat.

Fixpoint lstrip (s : string) : string :=
  match s with
  | EmptyString => EmptyString
  | String c s' => if is_space c then lstrip s' else s
  end.

Fixpoint rstrip (s : string) : string :=
  match s with
  | EmptyString => EmptyString
  | String c s' =>
      match rstrip s' with
      | EmptyString => if is_space c then EmptyString else String c EmptyString
      | r => String c r
      end
  end.

Definition strip (s : string) : string := rstrip (lstrip s).

(** [s.startswith(p)]. *)
Fixpoint startswith (p s : string) : bool :=
  match p with
  | EmptyString => true
  | String a p' =>
      match s with
      | EmptyString => false
      | String b s' => Ascii.eqb a b && startswith p' s'
      end
  end.

(** [needle in hay]. *)
Fixpoint str_in (needle hay : string) : bool :=
  startswith needle hay
  || match hay with
     | EmptyString => false
     | String _ hay' => str_in needle hay'
     end.

(** [s.split(sep)] for a one-character separator: the pieces between the
    separators, always at least one piece. *)
Fixpoint split (sep : ascii) (s : string) : list string :=
  match s with
  | EmptyString => [EmptyString]
  | String c s' =>
      if Ascii.eqb c sep then EmptyString :: split sep s'
      else match split sep s' with
           | [] => [String c EmptyString]
           | piece :: pieces => String c piece :: pieces
           end
  end.

End PyStr.
Import PyStr.

(* ================================================================== *)
(** ** The two regular expressions *)

Module Regex.

(** A literal pattern under [re.IGNORECASE]: every character of the subject
    is compared after lowering, against a pattern that is already lower
    case.  This is what [re] does for code points below 256.  Above them
    [re.IGNORECASE] also lets U+0130 and U+0131 match the letter i, which
    [str.lower] does not produce from them; such text is outside this model,
    and no statement below derives the substring test of [is_excluded_group]
    from a match of this search. *)
Fixpoint match_literal_ci (pat s : string) : option string :=
  match pat with
  | EmptyString => Some s
  | String a pat' =>
      match s with
      | EmptyString => None
      | String b s' =>
          if Ascii.eqb (lower_char b) a then match_literal_ci pat' s' else None
      end
  end.

(** The value and the closing quote of the attribute (a starred negated
    class, then a quote): the longest run without a quote, then a quote.  A shorter
    run is followed by a character that is not a quote, so backtracking
    finds nothing more. *)
Fixpoint match_value (s : string) : option string :=
  match s with
  | EmptyString => None
  | String c s' =>
      if Ascii.eqb c "034"%char then Some EmptyString
      else match match_value s' with
           | Some v => Some (String c v)
           | None => None
           end
  end.

Definition group_title_pat : string := "group-title=" ++ dquote.

(** The pattern of [get_group_title] (the literal [group-title=], a quote,
    the captured value, a quote) anchored at the start of [s]: group 1. *)
Definition match_group_title_here (s : string) : option string :=
  match match_literal_ci group_title_pat s with
  | Some rest => match_value rest
  | None => None
  end.

(** [re.search] of that pattern in [s] with [re.IGNORECASE]: the leftmost
    match; the result is group 1. *)
Fixpoint search_group_title (s : string) : option string :=
  match match_group_title_here s with
  | Some v => Some v
  | None =>
      match s with
      | EmptyString => None
      | String _ s' => search_group_title s'
      end
  end.

(** The longest prefix without a newline ([.] does not match a newline),
    and what is left. *)
Fixpoint span_dot (s : string) : string * string :=
  match s with
  | EmptyString => (EmptyString, EmptyString)
  | String c s' =>
      if Ascii.eqb c nl_char then (EmptyString, s)
      else let (run, rest) := span_dot s' in (String c run, rest)
  end.

(** [(.+)$] anchored at the start of [s]: the greedy run must be non-empty
    and must stop at the end of the string or at a final newline. *)
Definition match_rest_of_line (s : string) : option string :=
  let (run, rest) := span_dot s in
  if truthy run && (String.eqb rest EmptyString || String.eqb rest nl)
  then Some run else None.

(** [re.search(r',(.+)$', s)]: the leftmost comma at which the rest
    matches; the result is group 1. *)
Fixpoint search_title (s : string) : option string :=
  match s with
  | EmptyString => None
  | String c s' =>
      if Ascii.eqb c ","%char then
        match match_rest_of_line s' with
        | Some g => Some g
        | None => search_title s'
        end
      else search_title s'
  end.

End Regex.
Import Regex.

(* ================================================================== *)
(** ** Configuration constants *)

Definition SOURCES : list string :=
  [ "https://raw.githubusercontent.com/Jitendra-unatti/fancode/refs/heads/main/data/fancode.m3u";
    "https://raw.githubusercontent.com/alex8875/m3u/refs/heads/main/jtv.m3u";
    "https://raw.githubusercontent.com/alex8875/m3u/refs/heads/main/z5.m3u" ].

Definition EXCLUDED_GROUPS : list string :=
  ["devotional"; "music"; "educational"].

Definition EXCLUDE_LANGUAGES : list string :=
  ["tamil"; "telugu"; "oriya"; "gujarati"; "kannada"; "malayalam";
   "bhojpuri"; "punjabi"; "marathi"].

Definition EPG_URL : string :=
  "https://raw.githubusercontent.com/ibyb007/myepg/main/epg.xml.gz".

(* ================================================================== *)
(** ** Exclusion predicates *)

(** [get_group_title]: group 1 of the search, lowered, or the empty string. *)
Definition get_group_title (extinf_line : string) : string :=
  match search_group_title extinf_line with
  | Some g => lower g
  | None => EmptyString
  end.

(** [is_excluded_group]: the [for] loop over [EXCLUDED_GROUPS] returns at the
    first group whose attribute text occurs in the lowered line. *)
Definition is_excluded_group (extinf_line : string) : bool :=
  let lower_line := lower extinf_line in
  existsb (fun group => str_in ("group-title=" ++ dquote ++ group ++ dquote) lower_line)
          EXCLUDED_GROUPS.

(** [is_excluded_language]. *)
Definition is_excluded_language (title : string) : bool :=
  let lower_title := lower title in
  existsb (fun lang => str_in lang lower_title) EXCLUDE_LANGUAGES.

(** Lines 92-93 of [parse_m3u]: the title of a directive line. *)
Definition extract_title (extinf : string) : string :=
  match search_title extinf with
  | Some g => strip g
  | None => EmptyString
  end.

(* ================================================================== *)
(** ** Insertion-ordered dictionaries *)

Module ODict.

(** An [OrderedDict] with string keys: the items in insertion order. *)
Definition odict (V : Type) : Type := list (string * V).

Section Ops.
Context {V : Type}.

(** [k in d]. *)
Fixpoint od_mem (k : string) (d : odict V) : bool :=
  match d with
  | [] => false
  | (k', _) :: d' => String.eqb k' k || od_mem k d'
  end.

(** [d.get(k)]. *)
Fixpoint od_get (k : string) (d : odict V) : option V :=
  match d with
  | [] => None
  | (k', v) :: d' => if String.eqb k' k then Some v else od_get k d'
  end.

(** [d[k] = v]: a present key keeps its position and takes the new value,
    an absent key is appended. *)
Fixpoint od_set (k : string) (v : V) (d : odict V) : odict V :=
  match d with
  | [] => [(k, v)]
  | (k', v') :: d' =>
      if String.eqb k' k then (k, v) :: d' else (k', v') :: od_set k v d'
  end.

(** [list(d.keys())]. *)
Definition od_keys (d : odict V) : list string := map fst d.

(** The guarded store used by the parser and the merger:
    [if k not in d: d[k] = v]. *)
Definition od_add_new (k : string) (v : V) (d : odict V) : odict V :=
  if od_mem k d then d else od_set k v d.

End Ops.
End ODict.
Import ODict.

(* ================================================================== *)
(** ** Results of code that indexes and loops *)

Inductive result (A : Type) : Type :=
| Ok (a : A)
| IndexError
| OutOfFuel.
Arguments Ok {A} a.
Arguments IndexError {A}.
Arguments OutOfFuel {A}.

Definition bind {A B : Type} (r : result A) (k : A -> result B) : result B :=
  match r with
  | Ok a => k a
  | IndexError => IndexError
  | OutOfFuel => OutOfFuel
  end.

Notation "x <- r ;; k" := (bind r (fun x => k))
  (at level 61, r at next level, right associativity).
Notation "' p <- r ;; k" := (bind r (fun x => let p := x in k))
  (at level 61, p pattern, r at next level, right associativity).

(** [lines[i]]. *)
Definition getitem (lines : list string) (i : nat) : result string :=
  match nth_error lines i with
  | Some l => Ok l
  | None => IndexError
  end.

(* ================================================================== *)
(** ** parse_m3u *)

Abbreviation entries_t := (odict (list string)).

(** The guard of the two skipping loops (lines 85 and 99):
    [lines[i].startswith('#') or not lines[i].strip()]. *)
Definition skippable (l : string) : bool :=
  startswith "#" l || negb (truthy (strip l)).

(** Lines 85-86 and 99-100:
    [while i < len(lines) and (...): i += 1]. *)
Fixpoint skip_loop (fuel : nat) (lines : list string) (i : nat) : result nat :=
  match fuel with
  | O => OutOfFuel
  | S fuel' =>
      if Nat.ltb i (List.length lines) then
        l <- getitem lines i ;;
        if skippable l then skip_loop fuel' lines (S i) else Ok i
      else Ok i
  end.

(** Lines 84-88 and 98-102: step over the directive, run the skipping loop,
    then step over one line that does not start with the marker. *)
Definition skip_block (fuel : nat) (lines : list string) (i : nat) : result nat :=
  i1 <- skip_loop fuel lines (S i) ;;
  if Nat.ltb i1 (List.length lines) then
    l <- getitem lines i1 ;;
    if negb (startswith "#" l) then Ok (S i1) else Ok i1
  else Ok i1.

(** The guard of the collecting loop (line 110). *)
Definition is_prop_line (l : string) : bool :=
  startswith "#" l && negb (startswith "#EXTINF:" l).

(** Lines 108-114: append the marker lines that are no directive. *)
Fixpoint collect_loop (fuel : nat) (lines : list string) (i : nat)
         (block : list string) : result (nat * list string) :=
  match fuel with
  | O => OutOfFuel
  | S fuel' =>
      if Nat.ltb i (List.length lines) then
        next_line <- getitem lines i ;;
        if is_prop_line next_line
        then collect_loop fuel' lines (S i) (block ++ [next_line])%list
        else Ok (i, block)
      else Ok (i, block)
  end.

(** Fuel for the inner loops of one iteration: they only move forward. *)
Definition inner_fuel (lines : list string) : nat := S (List.length lines).

(** One iteration of the outer [while] (lines 77-135) from index [i] with
    the mapping [entries]; [continue] is the end of the iteration. *)
Definition loop_body (lines : list string) (st : nat * entries_t)
  : result (nat * entries_t) :=
  let (i, entries) := st in
  line <- getitem lines i ;;
  if startswith "#EXTINF:" line then
    let extinf := line in
    if is_excluded_group extinf then
      i' <- skip_block (inner_fuel lines) lines i ;;
      Ok (i', entries)
    else
      let title := extract_title extinf in
      if is_excluded_language title then
        i' <- skip_block (inner_fuel lines) lines i ;;
        Ok (i', entries)
      else
        ' (i1, block) <- collect_loop (inner_fuel lines) lines (S i) [extinf] ;;
        if Nat.ltb i1 (List.length lines) then
          url <- getitem lines i1 ;;
          if truthy url && negb (startswith "#" url)
          then Ok (S i1, od_add_new url block entries)
          else Ok (S i1, entries)
        else Ok (S i1, entries)
  else if truthy line && negb (startswith "#" line) then
    let url := line in
    Ok (S i, od_add_new url [] entries)
  else Ok (S i, entries).

(** The outer [while i < len(lines)] (line 76). *)
Fixpoint parse_loop (fuel : nat) (lines : list string) (st : nat * entries_t)
  : result entries_t :=
  match fuel with
  | O => OutOfFuel
  | S fuel' =>
      if Nat.ltb (fst st) (List.length lines) then
        st' <- loop_body lines st ;;
        parse_loop fuel' lines st'
      else Ok (snd st)
  end.

Definition parse_m3u (content : string) : result entries_t :=
  if negb (truthy content) then Ok []
  else
    let lines := split nl_char content in
    parse_loop (S (List.length lines)) lines (0, []).

(* ================================================================== *)
(** ** merge_m3us *)

(** The inner [for url, block in entries.items()] (lines 145-149). *)
Definition merge_source (merged entries : entries_t) : entries_t :=
  fold_left (fun merged ub => od_add_new (fst ub) (snd ub) merged) entries merged.

(** The outer [for source_name, entries in source_entries.items()]. *)
Definition merge_m3us (source_entries : odict entries_t) : entries_t :=
  fold_left (fun merged ne => merge_source merged (snd ne)) source_entries [].

(* ================================================================== *)
(** ** save_merged *)

(** [f.write(s)] on a file opened with mode w: the text written so far
    grows at its end. *)
Definition write (f s : string) : string := f ++ s.

Definition header_line : string := "#EXTM3U url-tvg=" ++ dquote ++ EPG_URL ++ dquote.

(** The content of the output file after [save_merged]. *)
Definition save_merged (merged : entries_t) : string :=
  let f := EmptyString in
  let f := write f (header_line ++ nl) in
  fold_left
    (fun f ub =>
       let f := fold_left (fun f b_line => write f (b_line ++ nl)) (snd ub) f in
       write f (fst ub ++ nl))
    merged f.

(* ================================================================== *)
(** ** fetch_m3u and main *)

(** [str(i)] for the index in the source label. *)
Definition str_of_nat (n : nat) : string :=
  NilEmpty.string_of_uint (Nat.to_uint n).

(** The label built at line 169.  [split] never returns an empty list, so
    the reads [[-1]] and [[0]] always find an element. *)
Definition source_name (i : nat) (url : string) : string :=
  "Source " ++ str_of_nat i ++ " ("
  ++ (if str_in "." url
      then hd EmptyString (split "."%char (last (split "/"%char url) EmptyString))
      else "Unknown")
  ++ ")".

Section Main.

(** What [urllib.request.urlopen(url)] followed by [read().decode('utf-8')]
    gives: the text, or [None] for any exception. *)
Variable urlopen : string -> option string.

(** [fetch_m3u]: the [except Exception] clause turns a failure into [None]. *)
Definition fetch_m3u (url : string) : option string := urlopen url.

(** The [for i, url in enumerate(SOURCES, 1)] loop (lines 168-177). *)
Fixpoint fetch_loop (i : nat) (sources : list string)
         (source_entries : odict entries_t) : result (odict entries_t) :=
  match sources with
  | [] => Ok source_entries
  | url :: sources' =>
      let name := source_name i url in
      match fetch_m3u url with
      | Some content =>
          (* [if content:] is false for [None] and for the empty text *)
          if truthy content then
            entries <- parse_m3u content ;;
            fetch_loop (S i) sources' (od_set name entries source_entries)
          else fetch_loop (S i) sources' source_entries
      | None => fetch_loop (S i) sources' source_entries
      end
  end.

(** [main] over a list of sources.  The result is the content of the output
    file when the run ends: [None] when [save_merged] was not called. *)
Definition main_on (sources : list string) : result (option string) :=
  source_entries <- fetch_loop 1 sources [] ;;
  match source_entries with
  | [] => Ok None
  | _ :: _ => Ok (Some (save_merged (merge_m3us source_entries)))
  end.

Definition main : result (option string) := main_on SOURCES.

End Main.

(* ================================================================== *)
(** ** Vocabulary of the statements *)

(** [n] iterations of the outer loop body, without the loop test. *)
Fixpoint run (n : nat) (lines : list string) (st : nat * entries_t)
  : result (nat * entries_t) :=
  match n with
  | O => Ok st
  | S n' => st' <- loop_body lines st ;; run n' lines st'
  end.

(** A line the parser takes as a locator (lines 118 and 127). *)
Definition is_locator (l : string) : bool :=
  truthy l && negb (startswith "#" l).

(** A list of keys without the later repetitions of an earlier key. *)
Fixpoint remove_later_duplicates (l : list string) : list string :=
  match l with
  | [] => []
  | x :: l' =>
      x :: filter (fun y => negb (String.eqb x y)) (remove_later_duplicates l')
  end.


(** A text made of lines, each one ended by a newline. *)
Fixpoint text_of_lines (ls : list string) : string :=
  match ls with
  | [] => EmptyString
  | l :: ls' => l ++ nl ++ text_of_lines ls'
  end.

(** The lines that the serializer owes to one entry: its block, then its
    locator. *)
Definition entry_lines (ub : string * list string) : list string :=
  (snd ub ++ [fst ub])%list.

(** The keys of [added] are lines of the document at indices from [lo]
    up to, and without, [hi]. *)
Definition keys_from (lines : list string) (lo hi : nat) (added : entries_t)
  : Prop :=
  Forall (fun k => exists j, lo <= j < hi /\ nth_error lines j = Some k)
         (od_keys added).

(** The sources that a run loads, with their labels: those whose fetch gives
    a text that is not empty, in the order of the source list. *)
Fixpoint loaded_sources (urlopen : string -> option string) (i : nat)
         (sources : list string) : odict entries_t :=
  match sources with
  | [] => []
  | url :: sources' =>
      match urlopen url with
      | Some (String _ _ as content) =>
          match parse_m3u content with
          | Ok entries =>
              (source_name i url, entries) :: loaded_sources urlopen (S i) sources'
          | _ => loaded_sources urlopen (S i) sources'
          end
      | _ => loaded_sources urlopen (S i) sources'
      end
  end.

(** The labels of a partly filled [source_entries] all carry an index
    below [i]. *)
Definition labels_below (i : nat) (source_entries : odict entries_t) : Prop :=
  Forall (fun k => exists j u, j < i /\ k = source_name j u)
         (od_keys source_entries).

(** What follows the first comma of a line, and what follows the last one;
    both are empty for a line without a comma. *)
Fixpoint after_first_comma (s : string) : string :=
  match s with
  | EmptyString => EmptyString
  | String c s' => if Ascii.eqb c ","%char then s' else after_first_comma s'
  end.

Fixpoint after_last_comma (s : string) : string :=
  match s with
  | EmptyString => EmptyString
  | String c s' =>
      if str_in "," s' then after_last_comma s'
      else if Ascii.eqb c ","%char then s' else EmptyString
  end.

(** The category attribute as it is written on a directive line. *)
Definition group_attr (g : string) : string :=
  "group-title=" ++ dquote ++ g ++ dquote.

(** ['\n'.join(ls)]. *)
Definition join_lines (ls : list string) : string := String.concat nl ls.

(** *** Readings of the claims that the code does not meet *)

(** Category exclusion decided by comparing the extracted value with the
    excluded categories. *)
Definition category_decided_by_extracted_value : Prop :=
  forall line : string,
    is_excluded_group line
    = existsb (String.eqb (get_group_title line)) EXCLUDED_GROUPS.

(** Every block with an excluded category or title has its locator absent
    from the parsed mapping. *)
Definition excluded_locator_always_absent : Prop :=
  forall (content : string) (pre : list string) (d : string)
         (props : list string) (url : string) (post : list string)
         (m : entries_t),
    split nl_char content = (pre ++ d :: props ++ url :: post)%list ->
    startswith "#EXTINF:" d = true ->
    Forall (fun l => is_prop_line l = true) props ->
    is_locator url = true ->
    In (get_group_title d) EXCLUDED_GROUPS
    \/ is_excluded_language (extract_title d) = true ->
    parse_m3u content = Ok m ->
    od_mem url m = false.

(** The run ends without output only when every fetch fails. *)
Definition no_output_only_when_all_fetches_fail : Prop :=
  forall urlopen : string -> option string,
    main urlopen = Ok None ->
    forall url, In url SOURCES -> urlopen url = None.

(** A blank or whitespace-only line between a retained block and its
    locator: the block is dropped and the locator becomes a plain entry. *)
Definition blank_line_drops_block : Prop :=
  forall (content d : string) (props : list string) (sep url : string),
    split nl_char content = (d :: props ++ [sep; url])%list ->
    startswith "#EXTINF:" d = true ->
    is_excluded_group d = false ->
    is_excluded_language (extract_title d) = false ->
    Forall (fun l => is_prop_line l = true) props ->
    strip sep = EmptyString ->
    is_locator url = true ->
    parse_m3u content = Ok [(url, [])].

(** *** Sample documents *)

Definition c3_line : string :=
  "#EXTINF:-1 " ++ group_attr "Sports" ++ " " ++ group_attr "Music" ++ ",Mix".

Definition c4_line : string := "#EXTINF:-1,Tamil One,ESPN".

Definition c4_doc : string := join_lines [c4_line; "http://x/espn"].

Definition music_directive : string :=
  "#EXTINF:-1 " ++ group_attr "Music" ++ ",Radio One".

Definition sports_directive : string :=
  "#EXTINF:-1 " ++ group_attr "Sports" ++ ",ESPN".

Definition c5_doc : string :=
  join_lines [music_directive; sports_directive; "http://x/espn"].

Definition c6_doc : string :=
  join_lines [music_directive; "http://x/a"; sports_directive; "http://x/a"].

Definition c6_slip_doc : string :=
  join_lines [sports_directive; music_directive; "http://x/radio"].

Definition c10_doc : string :=
  join_lines [sports_directive; "#KODIPROP:k=v"; " "; "http://x/espn"].

Definition c10_empty_doc : string :=
  join_lines [sports_directive; "#KODIPROP:k=v"; EmptyString; "http://x/espn"].

Definition all_fetches_empty (url : string) : option string := Some EmptyString.

Definition bare_directive : string := "#EXTINF:-1 Channel".

Definition second_fetch_fails (url : string) : option string :=
  if String.eqb url "b" then None else Some "http://x/a".

(* ================================================================== *)
(** ** Vocabulary of the further properties *)

(** A directive line that passes both exclusion tests of [parse_m3u]. *)
Definition retained_directive (d : string) : bool :=
  startswith "#EXTINF:" d
  && negb (is_excluded_group d)
  && negb (is_excluded_language (extract_title d)).

(** The two shapes of a stored block: empty (a plain entry), or a retained
    directive followed by property lines. *)
Definition block_shape (block : list string) : bool :=
  match block with
  | [] => true
  | d :: props => retained_directive d && forallb is_prop_line props
  end.

(** An item as [parse_m3u] stores it: a locator with a block of one of the
    two shapes. *)
Definition entry_shape (ub : string * list string) : bool :=
  is_locator (fst ub) && block_shape (snd ub).

(** The items of a list of items without those whose key stands earlier in
    the list. *)
Fixpoint first_items (e : entries_t) : entries_t :=
  match e with
  | [] => []
  | (k, v) :: e' =>
      (k, v) :: filter (fun ub => negb (String.eqb k (fst ub))) (first_items e')
  end.

(** A source whose fetch gives a text that is not empty. *)
Definition loads (urlopen : string -> option string) (url : string) : bool :=
  match urlopen url with
  | Some content => truthy content
  | None => false
  end.

(** The index of a result moved by [k] lines. *)
Definition shift_index {A : Type} (k : nat) (r : result (nat * A))
  : result (nat * A) :=
  match r with
  | Ok (i, a) => Ok (k + i, a)
  | IndexError => IndexError
  | OutOfFuel => OutOfFuel
  end.

(** A line that an iteration steps over without storing anything. *)
Definition ignorable (l : string) : bool :=
  negb (startswith "#EXTINF:" l) && negb (is_locator l).






Definition x_doc : string :=
  join_lines ["#EXTM3U"; sports_directive; "#KODIPROP:k=v"; "http://x/espn";
              music_directive; "http://x/radio"; "http://x/plain"].

Definition x_entries : entries_t :=
  [("http://x/espn", [sports_directive; "#KODIPROP:k=v"]);
   ("http://x/plain", [])].

(* ================================================================== *)
(** * Properties *)

(** ** Strings *)

Lemma append_empty_r (s : string) : s ++ EmptyString = s.
Proof. induction s as [|c s IH]; simpl; [reflexivity | now rewrite IH]. Qed.

Lemma append_assoc (a b c : string) : (a ++ b) ++ c = a ++ b ++ c.
Proof. induction a as [|x a IH]; simpl; [reflexivity | now rewrite IH]. Qed.

Lemma lower_app (a b : string) : lower (a ++ b) = lower a ++ lower b.
Proof. induction a as [|x a IH]; simpl; [reflexivity | now rewrite IH]. Qed.

Lemma startswith_app (p s : string) : startswith p (p ++ s) = true.
Proof.
  induction p as [|a p IH]; simpl; [reflexivity|].
  now rewrite Ascii.eqb_refl, IH.
Qed.

Lemma startswith_inv (p s : string) :
  startswith p s = true -> exists r, s = p ++ r.
Proof.
  revert s; induction p as [|a p IH]; intros s H; simpl in *.
  - now exists s.
  - destruct s as [|b s]; [discriminate|].
    apply andb_true_iff in H as [Hab Hps].
    apply Ascii.eqb_eq in Hab; subst b.
    destruct (IH _ Hps) as [r ->]. now exists r.
Qed.

Lemma str_in_app (a n b : string) : str_in n (a ++ n ++ b) = true.
Proof.
  induction a as [|x a IH]; simpl.
  - destruct (n ++ b) eqn:E; simpl;
      rewrite <- E, startswith_app; reflexivity.
  - rewrite IH. apply orb_true_r.
Qed.

Lemma str_in_inv (n h : string) :
  str_in n h = true -> exists a b, h = a ++ n ++ b.
Proof.
  induction h as [|x h IH]; simpl; intros H.
  - rewrite orb_false_r in H. apply startswith_inv in H as [r ->].
    now exists EmptyString, r.
  - apply orb_true_iff in H as [H|H].
    + apply startswith_inv in H as [r ->]. now exists EmptyString, r.
    + destruct (IH H) as (a & b & ->). now exists (String x a), b.
Qed.

(** ** The category pattern *)

Lemma lower_dquote : lower dquote = dquote.
Proof. reflexivity. Qed.

Lemma is_excluded_group_iff (line : string) :
  is_excluded_group line = true <->
  exists g pre post,
    In g EXCLUDED_GROUPS /\
    lower line = pre ++ ("group-title=" ++ dquote ++ g ++ dquote) ++ post.
Proof.
  unfold is_excluded_group. rewrite existsb_exists. split.
  - intros (g & Hg & H). apply str_in_inv in H as (a & b & H).
    now exists g, a, b.
  - intros (g & a & b & Hg & H). exists g. split; [exact Hg|].
    rewrite H. apply str_in_app.
Qed.

(** ** Ordered dictionaries *)

Section ODictFacts.
Context {V : Type}.
Implicit Types (d : odict V) (k : string) (v : V).

Lemma od_set_absent k v d :
  od_mem k d = false -> od_set k v d = (d ++ [(k, v)])%list.
Proof.
  induction d as [|[k' v'] d IH]; simpl; intros H; [reflexivity|].
  apply orb_false_iff in H as [Hk Hd]. now rewrite Hk, IH.
Qed.

Lemma od_add_new_unfold k v d :
  od_add_new k v d = if od_mem k d then d else (d ++ [(k, v)])%list.
Proof.
  unfold od_add_new. destruct (od_mem k d) eqn:E; [reflexivity|].
  now apply od_set_absent.
Qed.

Lemma od_mem_get k d : od_mem k d = match od_get k d with Some _ => true | None => false end.
Proof.
  induction d as [|[k' v'] d IH]; simpl; [reflexivity|].
  destruct (String.eqb k' k); [reflexivity | exact IH].
Qed.

Lemma od_mem_In k d : od_mem k d = true <-> In k (od_keys d).
Proof.
  induction d as [|[k' v'] d IH]; simpl.
  - split; [discriminate | tauto].
  - rewrite orb_true_iff, String.eqb_eq, IH. tauto.
Qed.

Lemma od_get_app k d d' :
  od_get k (d ++ d')%list =
  match od_get k d with Some b => Some b | None => od_get k d' end.
Proof.
  induction d as [|[k' v'] d IH]; simpl; [reflexivity|].
  destruct (String.eqb k' k); [reflexivity | exact IH].
Qed.

Lemma od_get_add_new k0 k v d :
  od_get k0 (od_add_new k v d) =
  match od_get k0 d with
  | Some b => Some b
  | None => if String.eqb k k0 then Some v else None
  end.
Proof.
  rewrite od_add_new_unfold. destruct (od_mem k d) eqn:E.
  - destruct (od_get k0 d) eqn:G; [reflexivity|].
    destruct (String.eqb k k0) eqn:K; [|reflexivity].
    apply String.eqb_eq in K; subst k0.
    rewrite od_mem_get, G in E. discriminate.
  - rewrite od_get_app. simpl. reflexivity.
Qed.

Lemma od_keys_add_new k v d :
  od_keys (od_add_new k v d) =
  (od_keys d ++ (if od_mem k d then [] else [k]))%list.
Proof.
  rewrite od_add_new_unfold. destruct (od_mem k d).
  - now rewrite app_nil_r.
  - unfold od_keys. now rewrite map_app.
Qed.

Lemma od_add_new_NoDup k v d :
  NoDup (od_keys d) -> NoDup (od_keys (od_add_new k v d)).
Proof.
  intros H. rewrite od_keys_add_new. destruct (od_mem k d) eqn:E.
  - now rewrite app_nil_r.
  - apply NoDup_app; [exact H | repeat constructor; intros [] | ].
    intros x Hx [<-|[]]. apply od_mem_In in Hx. congruence.
Qed.

End ODictFacts.

(** ** Reading lines *)

Lemma getitem_Ok (lines : list string) (i : nat) (l : string) :
  getitem lines i = Ok l <-> nth_error lines i = Some l.
Proof.
  unfold getitem. destruct (nth_error lines i); split; congruence.
Qed.

Lemma getitem_lt (lines : list string) (i : nat) :
  i < List.length lines -> exists l, getitem lines i = Ok l.
Proof.
  intros H. unfold getitem.
  destruct (nth_error lines i) eqn:E; [eauto|].
  apply nth_error_None in E. lia.
Qed.

Lemma getitem_mid (pre : list string) (x : string) (post : list string) :
  getitem (pre ++ x :: post) (List.length pre) = Ok x.
Proof.
  apply getitem_Ok. rewrite nth_error_app2, Nat.sub_diag; [reflexivity | lia].
Qed.

Lemma ltb_mid (pre : list string) (x : string) (post : list string) :
  Nat.ltb (List.length pre) (List.length (pre ++ x :: post)) = true.
Proof. apply Nat.ltb_lt. rewrite length_app. simpl. lia. Qed.

Lemma ltb_end (pre : list string) :
  Nat.ltb (List.length pre) (List.length (pre ++ [])) = false.
Proof. apply Nat.ltb_ge. rewrite app_nil_r. lia. Qed.

(** ** The inner loops *)

Lemma skip_loop_ge (fuel : nat) (lines : list string) (i i' : nat) :
  skip_loop fuel lines i = Ok i' -> i <= i'.
Proof.
  revert i; induction fuel as [|f IH]; intros i H; simpl in H; [discriminate|].
  destruct (Nat.ltb i (List.length lines)); [|injection H as <-; lia].
  destruct (getitem lines i) as [l| |]; simpl in H; try discriminate.
  destruct (skippable l); [|injection H as <-; lia].
  apply IH in H. lia.
Qed.

Lemma skip_loop_total (fuel : nat) (lines : list string) (i : nat) :
  List.length lines - i < fuel -> exists i', skip_loop fuel lines i = Ok i'.
Proof.
  revert i; induction fuel as [|f IH]; intros i H; [lia|]. simpl.
  destruct (Nat.ltb i (List.length lines)) eqn:L; [|eauto].
  apply Nat.ltb_lt in L. destruct (getitem_lt lines i L) as [l ->]. simpl.
  destruct (skippable l); [|eauto]. apply IH. lia.
Qed.

(** The skipping loop stops exactly after a run of skippable lines. *)
Lemma skip_loop_run (mids : list string) :
  forall (pre rest : list string) (fuel : nat),
    Forall (fun l => skippable l = true) mids ->
    match rest with [] => True | l :: _ => skippable l = false end ->
    List.length mids < fuel ->
    skip_loop fuel (pre ++ mids ++ rest) (List.length pre)
    = Ok (List.length pre + List.length mids).
Proof.
  induction mids as [|m mids IH]; intros pre rest fuel Hm Hr Hf;
    (destruct fuel as [|f]; [simpl in Hf; lia|]); simpl.
  - rewrite Nat.add_0_r. destruct rest as [|r rest].
    + now rewrite ltb_end.
    + now rewrite ltb_mid, getitem_mid; simpl; rewrite Hr.
  - inversion Hm as [|? ? Hm1 Hm2]; subst.
    rewrite ltb_mid, getitem_mid; simpl. rewrite Hm1.
    specialize (IH (pre ++ [m])%list rest f Hm2 Hr).
    rewrite <- app_assoc, length_app in IH. simpl in IH.
    rewrite Nat.add_1_r in IH. rewrite IH; [f_equal; lia | simpl in Hf; lia].
Qed.

Lemma collect_loop_ge (fuel : nat) (lines : list string) (i : nat)
      (block : list string) (i' : nat) (block' : list string) :
  collect_loop fuel lines i block = Ok (i', block') -> i <= i'.
Proof.
  revert i block; induction fuel as [|f IH]; intros i block H; simpl in H;
    [discriminate|].
  destruct (Nat.ltb i (List.length lines)); [|injection H as <- _; lia].
  destruct (getitem lines i) as [l| |]; simpl in H; try discriminate.
  destruct (is_prop_line l); [|injection H as <- _; lia].
  apply IH in H. lia.
Qed.

Lemma collect_loop_total (fuel : nat) (lines : list string) (i : nat)
      (block : list string) :
  List.length lines - i < fuel ->
  exists i' block', collect_loop fuel lines i block = Ok (i', block').
Proof.
  revert i block; induction fuel as [|f IH]; intros i block H; [lia|]. simpl.
  destruct (Nat.ltb i (List.length lines)) eqn:L; [|eauto].
  apply Nat.ltb_lt in L. destruct (getitem_lt lines i L) as [l ->]. simpl.
  destruct (is_prop_line l); [|eauto]. apply IH. lia.
Qed.

(** The collecting loop appends exactly a run of property lines. *)
Lemma collect_loop_run (props : list string) :
  forall (pre rest block : list string) (fuel : nat),
    Forall (fun l => is_prop_line l = true) props ->
    match rest with [] => True | l :: _ => is_prop_line l = false end ->
    List.length props < fuel ->
    collect_loop fuel (pre ++ props ++ rest) (List.length pre) block
    = Ok (List.length pre + List.length props, (block ++ props)%list).
Proof.
  induction props as [|m props IH]; intros pre rest block fuel Hm Hr Hf;
    (destruct fuel as [|f]; [simpl in Hf; lia|]); simpl.
  - rewrite Nat.add_0_r, app_nil_r. destruct rest as [|r rest].
    + now rewrite ltb_end.
    + now rewrite ltb_mid, getitem_mid; simpl; rewrite Hr.
  - inversion Hm as [|? ? Hm1 Hm2]; subst.
    rewrite ltb_mid, getitem_mid; simpl. rewrite Hm1.
    specialize (IH (pre ++ [m])%list rest (block ++ [m])%list f Hm2 Hr).
    rewrite <- !app_assoc, length_app in IH. simpl in IH.
    rewrite Nat.add_1_r in IH. rewrite IH; [| simpl in Hf; lia].  f_equal. f_equal. lia.
Qed.

Lemma skip_block_total (lines : list string) (i : nat) :
  exists i', skip_block (inner_fuel lines) lines i = Ok i' /\ i < i'.
Proof.
  unfold skip_block, inner_fuel.
  destruct (skip_loop_total (S (List.length lines)) lines (S i)) as [i1 H1]; [lia|].
  rewrite H1. cbn [bind]. apply skip_loop_ge in H1.
  destruct (Nat.ltb i1 (List.length lines)) eqn:L.
  - apply Nat.ltb_lt in L. destruct (getitem_lt lines i1 L) as [l ->]. cbn [bind].
    destruct (negb (startswith "#" l)); eexists; (split; [reflexivity | lia]).
  - eexists; split; [reflexivity | lia].
Qed.

(** ** One iteration of the outer loop *)

Lemma skip_block_gt (fuel : nat) (lines : list string) (i i' : nat) :
  skip_block fuel lines i = Ok i' -> i < i'.
Proof.
  unfold skip_block. intros H.
  destruct (skip_loop fuel lines (S i)) as [i1| |] eqn:E; cbn [bind] in H;
    try discriminate.
  apply skip_loop_ge in E.
  destruct (Nat.ltb i1 (List.length lines)); [|injection H as <-; lia].
  destruct (getitem lines i1) as [l| |]; cbn [bind] in H; try discriminate.
  destruct (negb (startswith "#" l)); injection H as <-; lia.
Qed.

(** An iteration moves forward, and either leaves the mapping as it is or
    appends one new key, which is a line it has just passed. *)
Lemma loop_body_shape (lines : list string) (i : nat) (E : entries_t)
      (i' : nat) (E' : entries_t) :
  loop_body lines (i, E) = Ok (i', E') ->
  i < i' /\
  (E' = E \/
   exists j url block,
     i <= j < i' /\ nth_error lines j = Some url /\
     od_mem url E = false /\ E' = (E ++ [(url, block)])%list).
Proof.
  assert (Add : forall j url block, i <= j < i' -> nth_error lines j = Some url ->
            E' = od_add_new url block E ->
            E' = E \/
            exists j url block,
              i <= j < i' /\ nth_error lines j = Some url /\
              od_mem url E = false /\ E' = (E ++ [(url, block)])%list).
  { intros j url block Hj Hn ->. rewrite od_add_new_unfold.
    destruct (od_mem url E) eqn:M; [now left|].
    right. exists j, url, block. auto. }
  unfold loop_body. intros H.
  destruct (getitem lines i) as [line| |] eqn:G; cbn [bind] in H; try discriminate.
  destruct (startswith "#EXTINF:" line).
  - destruct (is_excluded_group line).
    { destruct (skip_block _ lines i) as [i1| |] eqn:SB; cbn [bind] in H;
        try discriminate.
      injection H as <- <-. apply skip_block_gt in SB. auto. }
    destruct (is_excluded_language _).
    { destruct (skip_block _ lines i) as [i1| |] eqn:SB; cbn [bind] in H;
        try discriminate.
      injection H as <- <-. apply skip_block_gt in SB. auto. }
    destruct (collect_loop _ lines (S i) _) as [[i1 block]| |] eqn:C;
      cbn [bind] in H; try discriminate.
    apply collect_loop_ge in C.
    destruct (Nat.ltb i1 (List.length lines)).
    + destruct (getitem lines i1) as [url| |] eqn:G1; cbn [bind] in H;
        try discriminate.
      apply getitem_Ok in G1.
      destruct (truthy url && negb (startswith "#" url));
        injection H as <- HE; (split; [lia|]).
      * apply (Add i1 url block); [lia | exact G1 | now symmetry].
      * now left.
    + injection H as <- <-. split; [lia | now left].
  - apply getitem_Ok in G.
    destruct (truthy line && negb (startswith "#" line));
      injection H as <- HE; (split; [lia|]).
    + apply (Add i line []); [lia | exact G | now symmetry].
    + now left.
Qed.

Lemma loop_body_total (lines : list string) (i : nat) (E : entries_t) :
  i < List.length lines -> exists st', loop_body lines (i, E) = Ok st'.
Proof.
  intros Hi. unfold loop_body.
  destruct (getitem_lt lines i Hi) as [line ->]. cbn [bind].
  destruct (startswith "#EXTINF:" line).
  - destruct (skip_block_total lines i) as (i1 & SB & _).
    destruct (is_excluded_group line); [rewrite SB; cbn [bind]; eauto|].
    destruct (is_excluded_language _); [rewrite SB; cbn [bind]; eauto|].
    destruct (collect_loop_total (inner_fuel lines) lines (S i) [line])
      as (i2 & block & C); [unfold inner_fuel; lia|].
    rewrite C. cbn [bind].
    destruct (Nat.ltb i2 (List.length lines)) eqn:L; [|eauto].
    apply Nat.ltb_lt in L. destruct (getitem_lt lines i2 L) as [url ->].
    cbn [bind]. destruct (truthy url && negb (startswith "#" url)); eauto.
  - destruct (truthy line && negb (startswith "#" line)); eauto.
Qed.

(** ** The outer loop *)

Lemma parse_loop_total (fuel : nat) (lines : list string) (i : nat)
      (E : entries_t) :
  List.length lines - i < fuel -> exists m, parse_loop fuel lines (i, E) = Ok m.
Proof.
  revert i E; induction fuel as [|f IH]; intros i E H; [lia|].
  cbn [parse_loop fst snd].
  destruct (Nat.ltb i (List.length lines)) eqn:L; [|eauto].
  apply Nat.ltb_lt in L.
  destruct (loop_body_total lines i E L) as [[i' E'] B]. rewrite B. cbn [bind].
  apply loop_body_shape in B as [Hlt _]. apply IH. lia.
Qed.

Lemma keys_from_weaken (lines : list string) (lo hi lo' hi' : nat)
      (added : entries_t) :
  lo' <= lo -> hi <= hi' ->
  keys_from lines lo hi added -> keys_from lines lo' hi' added.
Proof.
  intros Hlo Hhi. unfold keys_from. apply Forall_impl.
  intros k (j & Hj & Hk). exists j. split; [lia | exact Hk].
Qed.

(** After any number of iterations the mapping has only grown at its end,
    by keys that are lines the scan has passed. *)
Lemma run_inv (n : nat) (lines : list string) :
  forall (i : nat) (E : entries_t) (i' : nat) (E' : entries_t),
    run n lines (i, E) = Ok (i', E') ->
    i <= i' /\ (exists added, E' = (E ++ added)%list /\ keys_from lines i i' added).
Proof.
  induction n as [|n IH]; intros i E i' E' H; cbn [run] in H.
  - injection H as <- <-. split; [lia|]. exists []. split.
    + now rewrite app_nil_r.
    + constructor.
  - destruct (loop_body lines (i, E)) as [[i1 E1]| |] eqn:B; cbn [bind] in H;
      try discriminate.
    apply loop_body_shape in B as [Hlt Hsh].
    apply IH in H as (Hle & added & -> & Hk). split; [lia|].
    destruct Hsh as [->|(j & url & block & Hj & Hn & _ & ->)].
    + exists added. split; [reflexivity|].
      eapply keys_from_weaken; [| |exact Hk]; lia.
    + exists ((url, block) :: added). split; [now rewrite <- app_assoc|].
      constructor.
      * exists j. split; [lia | exact Hn].
      * eapply keys_from_weaken; [| |exact Hk]; lia.
Qed.

Lemma run_NoDup (n : nat) (lines : list string) :
  forall (st st' : nat * entries_t),
    run n lines st = Ok st' ->
    NoDup (od_keys (snd st)) -> NoDup (od_keys (snd st')).
Proof.
  induction n as [|n IH]; intros [i E] [i' E'] H HE; cbn [run] in H.
  - now injection H as <- <-.
  - destruct (loop_body lines (i, E)) as [[i1 E1]| |] eqn:B; cbn [bind] in H;
      try discriminate.
    apply (IH _ _ H). cbn [snd] in *.
    apply loop_body_shape in B as [_ [->|(j & url & block & _ & _ & M & ->)]];
      [exact HE|].
    rewrite <- (od_set_absent url block E M).
    replace (od_set url block E) with (od_add_new url block E)
      by (unfold od_add_new; now rewrite M).
    now apply od_add_new_NoDup.
Qed.

(** The loop is a run of iterations that ends at the first state whose index
    is past the last line. *)
Lemma parse_loop_as_run (fuel : nat) (lines : list string) :
  forall (st : nat * entries_t) (m : entries_t),
    parse_loop fuel lines st = Ok m ->
    exists n i', run n lines st = Ok (i', m) /\ List.length lines <= i'.
Proof.
  induction fuel as [|f IH]; intros [i E] m H; cbn [parse_loop fst snd] in H;
    [discriminate|].
  destruct (Nat.ltb i (List.length lines)) eqn:L.
  - destruct (loop_body lines (i, E)) as [st1| |] eqn:B; cbn [bind] in H;
      try discriminate.
    destruct (IH _ _ H) as (n & i' & R & Hi'). exists (S n), i'.
    cbn [run]. now rewrite B.
  - injection H as <-. apply Nat.ltb_ge in L. now exists 0, i.
Qed.

(** A run from the start of the loop is a prefix of the loop's own run. *)
Lemma parse_loop_after_run (n : nat) (lines : list string) :
  forall (fuel : nat) (st st' : nat * entries_t) (m : entries_t),
    run n lines st = Ok st' ->
    parse_loop fuel lines st = Ok m ->
    exists fuel', parse_loop fuel' lines st' = Ok m.
Proof.
  induction n as [|n IH]; intros fuel [i E] st' m R P; cbn [run] in R.
  - injection R as <-. now exists fuel.
  - destruct (loop_body lines (i, E)) as [st1| |] eqn:B; cbn [bind] in R;
      try discriminate.
    destruct fuel as [|f]; [discriminate|]. cbn [parse_loop fst snd] in P.
    assert (L : Nat.ltb i (List.length lines) = true).
    { apply Nat.ltb_lt. unfold loop_body in B.
      destruct (getitem lines i) as [l| |] eqn:G; try discriminate.
      apply getitem_Ok in G. apply nth_error_Some. congruence. }
    rewrite L, B in P. cbn [bind] in P. exact (IH _ _ _ _ R P).
Qed.

Lemma parse_loop_inv (fuel : nat) (lines : list string) (i : nat)
      (E m : entries_t) :
  parse_loop fuel lines (i, E) = Ok m ->
  exists added,
    m = (E ++ added)%list /\ keys_from lines i (List.length lines) added.
Proof.
  intros H. apply parse_loop_as_run in H as (n & i' & R & _).
  apply run_inv in R as (_ & added & -> & Hk). exists added.
  split; [reflexivity|]. unfold keys_from in *.
  eapply Forall_impl; [|exact Hk]. intros k (j & Hj & Hn).
  exists j. split; [|exact Hn]. split; [lia|].
  apply nth_error_Some. congruence.
Qed.

(** ** Blocks *)

Lemma run_app (n1 n2 : nat) (lines : list string) :
  forall st : nat * entries_t,
    run (n1 + n2) lines st = (st' <- run n1 lines st ;; run n2 lines st').
Proof.
  induction n1 as [|n1 IH]; intros st; cbn [run Nat.add bind]; [reflexivity|].
  destruct (loop_body lines st) as [st1| |]; cbn [bind]; auto.
Qed.


Lemma parse_loop_get_stable (fuel : nat) (lines : list string) (i : nat)
      (E m : entries_t) (L : string) (B : list string) :
  parse_loop fuel lines (i, E) = Ok m ->
  od_get L E = Some B -> od_get L m = Some B.
Proof.
  intros P G. apply parse_loop_inv in P as (added & -> & _).
  now rewrite od_get_app, G.
Qed.

Lemma startswith_directive_marker (l : string) :
  startswith "#EXTINF:" l = true -> startswith "#" l = true.
Proof.
  intros H. apply startswith_inv in H as [r ->]. reflexivity.
Qed.

(** The guard of the skipping loops lets a directive line through. *)
Lemma directive_is_skippable (l : string) :
  startswith "#EXTINF:" l = true -> skippable l = true.
Proof.
  intros H. unfold skippable. now rewrite (startswith_directive_marker l H).
Qed.

Lemma skip_block_run (pre : list string) (d : string) (mids : list string)
      (url : string) (post : list string) (fuel : nat) :
  Forall (fun l => skippable l = true) mids ->
  skippable url = false ->
  List.length mids < fuel ->
  skip_block fuel (pre ++ d :: mids ++ url :: post) (List.length pre)
  = Ok (List.length pre + List.length mids + 2).
Proof.
  intros Hm Hu Hf. unfold skip_block.
  pose proof (skip_loop_run mids (pre ++ [d])%list (url :: post) fuel Hm Hu Hf) as R.
  rewrite <- app_assoc, length_app in R. cbn [app List.length] in R.
  rewrite Nat.add_1_r in R. rewrite R. cbn [bind].
  replace (pre ++ d :: mids ++ url :: post)%list
    with ((pre ++ d :: mids) ++ url :: post)%list
    by (rewrite <- app_assoc; reflexivity).
  replace (S (List.length pre) + List.length mids)
    with (List.length (pre ++ d :: mids)%list)
    by (rewrite length_app; simpl; lia).
  rewrite ltb_mid, getitem_mid. cbn [bind].
  unfold skippable in Hu. apply orb_false_iff in Hu as [-> _]. cbn [negb].
  f_equal. rewrite length_app. simpl. lia.
Qed.

(** An excluded directive that an iteration starts on: the iteration stores
    nothing and ends just after the first line that is neither marked nor
    blank. *)
Lemma excluded_block_step (pre : list string) (d : string)
      (mids : list string) (url : string) (post : list string) (E : entries_t) :
  startswith "#EXTINF:" d = true ->
  is_excluded_group d = true \/ is_excluded_language (extract_title d) = true ->
  Forall (fun l => skippable l = true) mids ->
  skippable url = false ->
  loop_body (pre ++ d :: mids ++ url :: post) (List.length pre, E)
  = Ok (List.length pre + List.length mids + 2, E).
Proof.
  intros Hd Hx Hm Hu. unfold loop_body.
  rewrite getitem_mid. cbn [bind]. rewrite Hd.
  assert (SB := skip_block_run pre d mids url post
                  (inner_fuel (pre ++ d :: mids ++ url :: post)) Hm Hu).
  rewrite SB.
  - cbn [bind].
    destruct (is_excluded_group d); [reflexivity|].
    destruct Hx as [Hx|Hx]; [discriminate|]. now rewrite Hx.
  - unfold inner_fuel. rewrite length_app. simpl. rewrite length_app. lia.
Qed.

(** A retained directive, its property lines, then a line that is no
    locator (here: the empty line): the iteration stores nothing and steps
    over that line. *)
Lemma retained_block_no_locator_step (pre : list string) (d : string)
      (props : list string) (sep : string) (post : list string) (E : entries_t) :
  startswith "#EXTINF:" d = true ->
  is_excluded_group d = false ->
  is_excluded_language (extract_title d) = false ->
  Forall (fun l => is_prop_line l = true) props ->
  is_prop_line sep = false ->
  is_locator sep = false ->
  loop_body (pre ++ d :: props ++ sep :: post) (List.length pre, E)
  = Ok (List.length pre + List.length props + 2, E).
Proof.
  intros Hd Hg Hl Hp Hs1 Hs2. unfold loop_body.
  rewrite getitem_mid. cbn [bind]. rewrite Hd, Hg, Hl.
  pose proof (collect_loop_run props (pre ++ [d])%list (sep :: post) [d]
                (inner_fuel (pre ++ d :: props ++ sep :: post)) Hp Hs1) as C.
  rewrite <- app_assoc, length_app in C. cbn [app List.length] in C.
  rewrite Nat.add_1_r in C. rewrite C.
  - cbn [bind].
    replace (pre ++ d :: props ++ sep :: post)%list
      with ((pre ++ d :: props) ++ sep :: post)%list
      by (rewrite <- app_assoc; reflexivity).
    replace (S (List.length pre) + List.length props)
      with (List.length (pre ++ d :: props)%list)
      by (rewrite length_app; simpl; lia).
    rewrite ltb_mid, getitem_mid. cbn [bind].
    unfold is_locator in Hs2. rewrite Hs2.
    f_equal. f_equal. rewrite length_app. simpl. lia.
  - unfold inner_fuel. rewrite length_app. simpl. rewrite length_app. lia.
Qed.

(** A retained directive, its property lines, then a locator: the block is
    stored under the locator unless the locator is already a key. *)
Lemma retained_block_step (pre : list string) (d : string)
      (props : list string) (url : string) (post : list string) (E : entries_t) :
  startswith "#EXTINF:" d = true ->
  is_excluded_group d = false ->
  is_excluded_language (extract_title d) = false ->
  Forall (fun l => is_prop_line l = true) props ->
  is_locator url = true ->
  loop_body (pre ++ d :: props ++ url :: post) (List.length pre, E)
  = Ok (List.length pre + List.length props + 2,
        od_add_new url (d :: props) E).
Proof.
  intros Hd Hg Hl Hp Hu. unfold loop_body.
  rewrite getitem_mid. cbn [bind]. rewrite Hd, Hg, Hl.
  assert (Hu' : is_prop_line url = false).
  { unfold is_locator in Hu. apply andb_true_iff in Hu as [_ Hu].
    unfold is_prop_line. destruct (startswith "#" url); [discriminate|reflexivity]. }
  pose proof (collect_loop_run props (pre ++ [d])%list (url :: post) [d]
                (inner_fuel (pre ++ d :: props ++ url :: post)) Hp Hu') as C.
  rewrite <- app_assoc, length_app in C. cbn [app List.length] in C.
  rewrite Nat.add_1_r in C. rewrite C.
  - cbn [bind].
    replace (pre ++ d :: props ++ url :: post)%list
      with ((pre ++ d :: props) ++ url :: post)%list
      by (rewrite <- app_assoc; reflexivity).
    replace (S (List.length pre) + List.length props)
      with (List.length (pre ++ d :: props)%list)
      by (rewrite length_app; simpl; lia).
    rewrite ltb_mid, getitem_mid. cbn [bind].
    unfold is_locator in Hu. rewrite Hu.
    f_equal. f_equal. rewrite length_app. simpl. lia.
  - unfold inner_fuel. rewrite length_app. simpl. rewrite length_app. lia.
Qed.

(** A locator line that an iteration starts on is stored as a plain entry
    unless it is already a key. *)
Lemma plain_locator_step (pre : list string) (url : string)
      (post : list string) (E : entries_t) :
  is_locator url = true ->
  loop_body (pre ++ url :: post) (List.length pre, E)
  = Ok (S (List.length pre), od_add_new url [] E).
Proof.
  intros Hu. unfold loop_body. rewrite getitem_mid. cbn [bind].
  destruct (startswith "#EXTINF:" url) eqn:D.
  - apply startswith_directive_marker in D. unfold is_locator in Hu.
    rewrite D, andb_false_r in Hu. discriminate.
  - unfold is_locator in Hu. now rewrite Hu.
Qed.

(** ** The merger *)

Lemma merge_source_app (M a b : entries_t) :
  merge_source M (a ++ b)%list = merge_source (merge_source M a) b.
Proof. unfold merge_source. apply fold_left_app. Qed.

(** The two nested loops are one loop over all the items, source after
    source. *)
Lemma merge_fold_flat (sources : odict entries_t) :
  forall M : entries_t,
    fold_left (fun merged ne => merge_source merged (snd ne)) sources M
    = merge_source M (List.concat (map snd sources)).
Proof.
  induction sources as [|[name e] sources IH]; intros M; simpl; [reflexivity|].
  now rewrite IH, merge_source_app.
Qed.



Lemma filter_all {A : Type} (l : list A) : filter (fun _ => true) l = l.
Proof. induction l as [|x l IH]; simpl; [reflexivity | now rewrite IH]. Qed.

Lemma filter_filter {A : Type} (f g : A -> bool) (l : list A) :
  filter f (filter g l) = filter (fun x => g x && f x) l.
Proof.
  induction l as [|x l IH]; simpl; [reflexivity|].
  destruct (g x); simpl; [destruct (f x)|]; now rewrite IH.
Qed.

Lemma od_mem_app_one (y k : string) (v : list string) (M : entries_t) :
  od_mem y (M ++ [(k, v)])%list = od_mem y M || String.eqb k y.
Proof.
  induction M as [|[k' v'] M IH]; simpl; [now rewrite orb_false_r|].
  now rewrite IH, orb_assoc.
Qed.

Lemma merge_source_keys (e : entries_t) :
  forall M : entries_t,
    od_keys (merge_source M e)
    = (od_keys M
       ++ filter (fun y => negb (od_mem y M))
                 (remove_later_duplicates (od_keys e)))%list.
Proof.
  induction e as [|[k v] e IH]; intros M.
  - simpl. now rewrite app_nil_r.
  - change (merge_source M ((k, v) :: e))
      with (merge_source (od_add_new k v M) e).
    rewrite IH, od_add_new_unfold. cbn [od_keys map fst remove_later_duplicates filter].
    fold (od_keys e). destruct (od_mem k M) eqn:K; cbn [negb].
    + f_equal. rewrite filter_filter. apply filter_ext_in. intros y _.
      destruct (String.eqb k y) eqn:Y; [|reflexivity].
      apply String.eqb_eq in Y; subst y. now rewrite K.
    + unfold od_keys at 1. rewrite map_app, <- app_assoc. cbn [map fst app].
      f_equal. f_equal. rewrite filter_filter. apply filter_ext_in. intros y _.
      rewrite od_mem_app_one, negb_orb. apply andb_comm.
Qed.

(** ** The serializer *)

Lemma text_of_lines_app (a b : list string) :
  text_of_lines (a ++ b)%list = text_of_lines a ++ text_of_lines b.
Proof.
  induction a as [|l a IH]; simpl; [reflexivity|].
  now rewrite IH, !append_assoc.
Qed.

Lemma write_block (block : list string) :
  forall f : string,
    fold_left (fun f b_line => write f (b_line ++ nl)) block f
    = f ++ text_of_lines block.
Proof.
  induction block as [|b block IH]; intros f; simpl.
  - now rewrite append_empty_r.
  - rewrite IH. unfold write. now rewrite !append_assoc.
Qed.

Lemma write_entries (merged : entries_t) :
  forall f : string,
    fold_left
      (fun f ub =>
         let f := fold_left (fun f b_line => write f (b_line ++ nl)) (snd ub) f in
         write f (fst ub ++ nl))
      merged f
    = f ++ text_of_lines (flat_map entry_lines merged).
Proof.
  induction merged as [|[url block] merged IH]; intros f;
    cbn [fold_left flat_map fst snd].
  - simpl. now rewrite append_empty_r.
  - rewrite IH, write_block. unfold write, entry_lines. cbn [fst snd].
    rewrite !text_of_lines_app.
    change (text_of_lines [url]) with (url ++ nl ++ EmptyString).
    now rewrite append_empty_r, !append_assoc.
Qed.

Lemma str_in_nl_cons (c : ascii) (l : string) :
  str_in nl (String c l) = false ->
  Ascii.eqb c nl_char = false /\ str_in nl l = false.
Proof.
  simpl. intros H. apply orb_false_iff in H as [H1 H2]. split.
  - rewrite Ascii.eqb_sym. now rewrite andb_true_r in H1.
  - destruct l; simpl in *; exact H2.
Qed.

Lemma split_line (l rest : string) :
  str_in nl l = false ->
  split nl_char (l ++ nl ++ rest) = l :: split nl_char rest.
Proof.
  induction l as [|c l IH]; intros H.
  - simpl. reflexivity.
  - apply str_in_nl_cons in H as [Hc Hl].
    cbn [append split]. rewrite Hc, (IH Hl). reflexivity.
Qed.

Lemma split_text_of_lines (ls : list string) :
  Forall (fun l => str_in nl l = false) ls ->
  split nl_char (text_of_lines ls) = (ls ++ [EmptyString])%list.
Proof.
  induction 1 as [|l ls Hl _ IH]; [reflexivity|].
  cbn [text_of_lines app]. now rewrite split_line, IH.
Qed.

(** ** Source labels *)

Lemma append_inv_head (a x y : string) : a ++ x = a ++ y -> x = y.
Proof.
  induction a as [|c a IH]; simpl; intros H; [exact H|].
  injection H as H. auto.
Qed.

(** A decimal numeral followed by a space determines the numeral. *)
Lemma string_of_uint_sep (d : Decimal.uint) :
  forall (d' : Decimal.uint) (r r' : string),
    NilEmpty.string_of_uint d ++ String " " r
    = NilEmpty.string_of_uint d' ++ String " " r' ->
    d = d'.
Proof.
  induction d; destruct d'; simpl; intros r r' H;
    try discriminate; try reflexivity;
    injection H as H; f_equal; eauto.
Qed.

Lemma source_name_inj (i j : nat) (u v : string) :
  source_name i u = source_name j v -> i = j.
Proof.
  unfold source_name, str_of_nat. intros H.
  apply append_inv_head in H.
  apply DecimalNat.Unsigned.to_uint_inj.
  eapply string_of_uint_sep. exact H.
Qed.

(** ** The fetch loop *)

Lemma fetch_loop_spec (urlopen : string -> option string)
      (sources : list string) :
  forall (i : nat) (acc : odict entries_t),
    labels_below i acc ->
    fetch_loop urlopen i sources acc
    = Ok (acc ++ loaded_sources urlopen i sources)%list.
Proof.
  induction sources as [|url sources IH]; intros i acc Hacc;
    cbn [fetch_loop loaded_sources].
  - now rewrite app_nil_r.
  - assert (Hnext : labels_below (S i) acc).
    { unfold labels_below in *. eapply Forall_impl; [|exact Hacc].
      intros k (j & u & Hj & ->). exists j, u. split; [lia | reflexivity]. }
    unfold fetch_m3u. destruct (urlopen url) as [[|c s]|]; cbn [truthy];
      try (now apply IH).
    destruct (parse_loop_total (S (List.length (split nl_char (String c s))))
                (split nl_char (String c s)) 0 []) as [m Hm]; [lia|].
    assert (P : parse_m3u (String c s) = Ok m) by exact Hm.
    rewrite P. cbn [bind].
    assert (Hfresh : od_mem (source_name i url) acc = false).
    { destruct (od_mem (source_name i url) acc) eqn:M; [|reflexivity].
      apply od_mem_In in M. unfold labels_below in Hacc.
      rewrite Forall_forall in Hacc.
      destruct (Hacc _ M) as (j & u & Hj & Heq).
      apply source_name_inj in Heq. lia. }
    rewrite (od_set_absent _ _ _ Hfresh), IH.
    + now rewrite <- app_assoc.
    + unfold labels_below in *. unfold od_keys. rewrite map_app.
      apply Forall_app. split; [exact Hnext|].
      repeat constructor. exists i, url. split; [lia | reflexivity].
Qed.

Lemma loaded_sources_nil (urlopen : string -> option string)
      (sources : list string) :
  forall i : nat,
    loaded_sources urlopen i sources = [] <->
    (forall url, In url sources ->
                 urlopen url = None \/ urlopen url = Some EmptyString).
Proof.
  induction sources as [|url sources IH]; intros i; cbn [loaded_sources].
  - split; [intros _ u [] | reflexivity].
  - destruct (urlopen url) as [[|c s]|] eqn:U.
    + rewrite IH. split.
      * intros H u [<-|Hu]; [now right | now apply H].
      * intros H u Hu. apply H. now right.
    + destruct (parse_loop_total (S (List.length (split nl_char (String c s))))
                  (split nl_char (String c s)) 0 []) as [m Hm]; [lia|].
      assert (P : parse_m3u (String c s) = Ok m) by exact Hm.
      rewrite P. split; [discriminate|].
      intros H. destruct (H url (or_introl eq_refl)) as [H'|H'];
        rewrite U in H'; discriminate.
    + rewrite IH. split.
      * intros H u [<-|Hu]; [now left | now apply H].
      * intros H u Hu. apply H. now right.
Qed.

(** ** The title pattern *)

Lemma str_in_comma_cons (c : ascii) (s : string) :
  str_in "," (String c s) = false ->
  Ascii.eqb c ","%char = false /\ str_in "," s = false.
Proof.
  simpl. intros H. apply orb_false_iff in H as [H1 H2]. split.
  - rewrite Ascii.eqb_sym. now rewrite andb_true_r in H1.
  - destruct s; simpl in *; exact H2.
Qed.

Lemma search_title_no_comma (s : string) :
  str_in "," s = false -> search_title s = None.
Proof.
  induction s as [|c s IH]; intros H; [reflexivity|].
  apply str_in_comma_cons in H as [Hc Hs]. cbn [search_title].
  rewrite Hc. auto.
Qed.

Lemma span_dot_no_nl (s : string) :
  str_in nl s = false -> span_dot s = (s, EmptyString).
Proof.
  induction s as [|c s IH]; intros H; [reflexivity|].
  apply str_in_nl_cons in H as [Hc Hs]. cbn [span_dot].
  now rewrite Hc, (IH Hs).
Qed.

Lemma search_title_first_comma (s : string) :
  str_in nl s = false ->
  search_title s
  = if truthy (after_first_comma s) then Some (after_first_comma s) else None.
Proof.
  induction s as [|c s IH]; intros H; [reflexivity|].
  apply str_in_nl_cons in H as [Hc Hs].
  cbn [search_title after_first_comma].
  destruct (Ascii.eqb c ",") eqn:K; [|auto].
  unfold match_rest_of_line. rewrite (span_dot_no_nl s Hs).
  destruct s as [|c' s']; reflexivity.
Qed.

Lemma split_no_nl (s : string) :
  Forall (fun l => str_in nl l = false) (split nl_char s).
Proof.
  induction s as [|c s IH]; cbn [split].
  - repeat constructor.
  - destruct (Ascii.eqb c nl_char) eqn:K.
    + constructor; [reflexivity | exact IH].
    + destruct (split nl_char s) as [|p ps].
      * repeat constructor. cbn [str_in startswith nl].
        rewrite Ascii.eqb_sym, K. reflexivity.
      * inversion IH as [|? ? Hp Hps]; subst. constructor; [|exact Hps].
        cbn [str_in startswith nl]. rewrite Ascii.eqb_sym, K. cbn [andb orb].
        destruct p; exact Hp.
Qed.

Lemma extract_title_first_comma (line : string) :
  str_in nl line = false ->
  extract_title line = strip (after_first_comma line).
Proof.
  intros H. unfold extract_title. rewrite (search_title_first_comma line H).
  destruct (after_first_comma line); reflexivity.
Qed.

Lemma parse_m3u_unfold (content : string) :
  parse_m3u content
  = parse_loop (S (List.length (split nl_char content)))
               (split nl_char content) (0, []).
Proof. destruct content; reflexivity. Qed.

Lemma parse_m3u_total (content : string) :
  exists m, parse_m3u content = Ok m.
Proof. rewrite parse_m3u_unfold. apply parse_loop_total. lia. Qed.

(** ** Completeness of the category search *)

Lemma lower_app_inv (a b : string) :
  forall s : string,
    lower s = a ++ b ->
    exists a' b', s = a' ++ b' /\ lower a' = a /\ lower b' = b.
Proof.
  induction a as [|x a IH]; intros s H.
  - exists EmptyString, s. auto.
  - destruct s as [|c s]; [discriminate|]. simpl in H. injection H as Hc Hs.
    destruct (IH _ Hs) as (a' & b' & -> & Ha & Hb).
    exists (String c a'), b'. simpl. now rewrite Hc, Ha.
Qed.

Lemma match_literal_ci_app (m rest : string) :
  match_literal_ci (lower m) (m ++ rest) = Some rest.
Proof.
  induction m as [|c m IH]; simpl; [reflexivity|].
  now rewrite Ascii.eqb_refl.
Qed.

Lemma match_value_some (v rest : string) :
  match_value (v ++ dquote ++ rest) <> None.
Proof.
  induction v as [|c v IH]; [simpl; discriminate|].
  cbn [append match_value].
  destruct (Ascii.eqb c "034"); [discriminate|].
  destruct (match_value (v ++ dquote ++ rest)); [discriminate | exact IH].
Qed.

Lemma search_group_title_here (s : string) :
  match_group_title_here s <> None -> search_group_title s <> None.
Proof.
  intros H. destruct s; cbn [search_group_title];
    destruct (match_group_title_here _); congruence.
Qed.

Lemma search_group_title_complete (pre m v rest : string) :
  lower m = group_title_pat ->
  search_group_title (pre ++ m ++ v ++ dquote ++ rest) <> None.
Proof.
  intros Hm.
  assert (Here : match_group_title_here (m ++ v ++ dquote ++ rest) <> None).
  { unfold match_group_title_here. rewrite <- Hm, match_literal_ci_app.
    apply match_value_some. }
  induction pre as [|c pre IH].
  - now apply search_group_title_here.
  - change (search_group_title (String c pre ++ m ++ v ++ dquote ++ rest))
      with (match match_group_title_here
                    (String c (pre ++ m ++ v ++ dquote ++ rest)) with
            | Some w => Some w
            | None => search_group_title (pre ++ m ++ v ++ dquote ++ rest)
            end).
    destruct (match_group_title_here (String c _)); [discriminate | exact IH].
Qed.

Lemma lower_char_dquote (c : ascii) : lower_char c = "034"%char -> c = "034"%char.
Proof.
  destruct c as [[] [] [] [] [] [] [] []]; vm_compute; intros H;
    first [reflexivity | discriminate].
Qed.

Lemma lower_dquote_inv (q : string) : lower q = dquote -> q = dquote.
Proof.
  destruct q as [|c [|c' q]]; try discriminate. simpl. intros H.
  injection H as H. apply lower_char_dquote in H. now subst.
Qed.

(** A directive that the substring test excludes carries an attribute that
    the search finds. *)
Lemma excluded_has_attribute (line : string) :
  is_excluded_group line = true -> search_group_title line <> None.
Proof.
  intros H. apply is_excluded_group_iff in H as (g & pre & post & _ & Hl).
  replace (pre ++ ("group-title=" ++ dquote ++ g ++ dquote) ++ post)
    with (pre ++ group_title_pat ++ g ++ dquote ++ post) in Hl
    by (unfold group_title_pat; now rewrite !append_assoc).
  apply lower_app_inv in Hl as (pre' & r1 & -> & _ & H1).
  apply lower_app_inv in H1 as (m & r2 & -> & Hm & H2).
  apply lower_app_inv in H2 as (v & r3 & -> & _ & H3).
  apply lower_app_inv in H3 as (q & rest & -> & Hq & _).
  apply lower_dquote_inv in Hq. subst q.
  now apply search_group_title_complete.
Qed.

(** ** Keys without repetition *)

Lemma remove_later_duplicates_NoDup (l : list string) :
  NoDup (remove_later_duplicates l).
Proof.
  induction l as [|x l IH]; cbn [remove_later_duplicates]; constructor.
  - intros H. apply filter_In in H as [_ H].
    now rewrite String.eqb_refl in H.
  - now apply NoDup_filter.
Qed.

Lemma merge_m3us_keys (sources : odict entries_t) :
  od_keys (merge_m3us sources)
  = remove_later_duplicates
      (List.concat (map (fun ne => od_keys (snd ne)) sources)).
Proof.
  unfold merge_m3us. rewrite merge_fold_flat, merge_source_keys.
  cbn [od_keys map app od_mem negb]. rewrite filter_all.
  f_equal. unfold od_keys. rewrite concat_map, map_map. reflexivity.
Qed.


Lemma parse_m3u_NoDup (content : string) (m : entries_t) :
  parse_m3u content = Ok m -> NoDup (od_keys m).
Proof.
  rewrite parse_m3u_unfold. intros H.
  apply parse_loop_as_run in H as (n & i' & R & _).
  apply (run_NoDup _ _ _ _ R). constructor.
Qed.

(** ** Lines of a document by position *)

Lemma nth_error_in_prefix (pre rest : list string) (j : nat) (k : string) :
  j < List.length pre -> nth_error (pre ++ rest) j = Some k -> In k pre.
Proof.
  intros Hj H. rewrite nth_error_app1 in H by exact Hj.
  eapply nth_error_In; eauto.
Qed.

Lemma nth_error_in_suffix (pre rest : list string) (j : nat) (k : string) :
  List.length pre <= j -> nth_error (pre ++ rest) j = Some k -> In k rest.
Proof.
  intros Hj H. rewrite nth_error_app2 in H by exact Hj.
  eapply nth_error_In; eauto.
Qed.

(** ** Labels do not matter to the merge *)

Lemma loaded_sources_entries (urlopen : string -> option string)
      (sources : list string) :
  forall i j : nat,
    map snd (loaded_sources urlopen i sources)
    = map snd (loaded_sources urlopen j sources).
Proof.
  induction sources as [|url sources IH]; intros i j; cbn [loaded_sources];
    [reflexivity|].
  destruct (urlopen url) as [[|c s]|]; auto.
  destruct (parse_m3u (String c s)); auto.
  cbn [map snd]. f_equal. apply IH.
Qed.

Lemma loaded_sources_app (urlopen : string -> option string)
      (a b : list string) :
  forall i : nat,
    loaded_sources urlopen i (a ++ b)
    = (loaded_sources urlopen i a
       ++ loaded_sources urlopen (i + List.length a) b)%list.
Proof.
  induction a as [|url a IH]; intros i; cbn [loaded_sources app List.length].
  - now rewrite Nat.add_0_r.
  - replace (i + S (List.length a)) with (S i + List.length a) by lia.
    destruct (urlopen url) as [[|c s]|]; auto.
    destruct (parse_m3u (String c s)); auto.
    cbn [app]. f_equal. apply IH.
Qed.

Lemma main_on_spec (urlopen : string -> option string) (sources : list string) :
  main_on urlopen sources
  = Ok match loaded_sources urlopen 1 sources with
       | [] => None
       | _ :: _ =>
           Some (save_merged (merge_m3us (loaded_sources urlopen 1 sources)))
       end.
Proof.
  unfold main_on. rewrite fetch_loop_spec by constructor. cbn [bind app].
  destruct (loaded_sources urlopen 1 sources); reflexivity.
Qed.

Lemma merge_m3us_entries (l l' : odict entries_t) :
  map snd l = map snd l' -> merge_m3us l = merge_m3us l'.
Proof.
  intros H. unfold merge_m3us. rewrite !merge_fold_flat. now rewrite H.
Qed.

(* ================================================================== *)
(** * The claims *)

(** C2. The keys of the merged mapping, in iteration order, are the keys of
    the sources in source order and within-source order, without the later
    repetitions of an earlier key. *)
Theorem C2_merge_order :
  forall sources : odict entries_t,
    od_keys (merge_m3us sources)
    = remove_later_duplicates
        (List.concat (map (fun ne => od_keys (snd ne)) sources)).
Proof.
  intros sources. unfold merge_m3us.
  rewrite merge_fold_flat, merge_source_keys.
  cbn [od_keys map app od_mem negb]. rewrite filter_all.
  f_equal. unfold od_keys. rewrite concat_map, map_map. reflexivity.
Qed.

(** C3, as the code has it.  The category decision is a substring test and
    does not use the extracted value: a directive is excluded exactly when
    its lowered text contains, anywhere, the attribute text of an excluded
    category.  A directive in which the search finds no attribute has the
    empty category and is not excluded. *)
Theorem C3_category_exclusion_is_a_substring_test :
  forall line : string,
    (is_excluded_group line = true <->
     exists g pre post,
       In g EXCLUDED_GROUPS /\ lower line = pre ++ group_attr g ++ post)
    /\ (search_group_title line = None ->
        get_group_title line = EmptyString /\ is_excluded_group line = false).
Proof.
  intros line. split.
  - apply is_excluded_group_iff.
  - intros H. split.
    + unfold get_group_title. now rewrite H.
    + destruct (is_excluded_group line) eqn:E; [|reflexivity].
      now apply excluded_has_attribute in E.
Qed.

(** C3 fails as stated: a line whose extracted category is [sports] is
    excluded, because a second attribute on the line names [music]. *)
Lemma C3_counterexample : ~ category_decided_by_extracted_value.
Proof.
  intros H. specialize (H c3_line). vm_compute in H. discriminate H.
Qed.

(** What the code computes on that line. *)
Example c3_line_values :
  get_group_title c3_line = "sports" /\ is_excluded_group c3_line = true.
Proof. split; reflexivity. Qed.

(** C4. The title is taken after the first comma of the line, not the last:
    on every line of a document it is the stripped text after the first
    comma.  With two commas a language token before the last comma excludes
    the block, although the text after the last comma has no token. *)
Theorem C4_title_is_taken_after_first_comma :
  (forall content line : string,
      In line (split nl_char content) ->
      extract_title line = strip (after_first_comma line))
  /\ extract_title c4_line = "Tamil One,ESPN"
  /\ after_last_comma c4_line = "ESPN"
  /\ is_excluded_language (after_last_comma c4_line) = false
  /\ is_excluded_group c4_line = false
  /\ parse_m3u c4_doc = Ok [].
Proof.
  split.
  - intros content line Hin. apply extract_title_first_comma.
    pose proof (split_no_nl content) as F. rewrite Forall_forall in F. auto.
  - repeat split; reflexivity.
Qed.

(** C5. The skip after an excluded directive runs over every marked line,
    directives included: an excluded directive without a locator takes the
    next entry with it.  The second block alone is parsed and kept. *)
Theorem C5_skip_swallows_next_directive :
  (forall l : string, startswith "#EXTINF:" l = true -> skippable l = true)
  /\ skip_block 4 (split nl_char c5_doc) 0 = Ok 3
  /\ parse_m3u c5_doc = Ok []
  /\ parse_m3u (join_lines [sports_directive; "http://x/espn"])
     = Ok [("http://x/espn", [sports_directive])].
Proof.
  split; [exact directive_is_skippable|]. repeat split; reflexivity.
Qed.

(** C6, as the code has it.  When an iteration of the scan starts on a
    directive that the parser's category test or language test rejects, the
    block (the directive, the marked lines after it that are no directive,
    and the locator line, which is not blank) adds nothing to the mapping
    and the scan resumes right after the locator; the locator is absent from
    the parsed mapping unless another line of the document has the same
    text. *)
Theorem C6_excluded_block_adds_nothing :
  forall (content : string) (pre : list string) (d : string)
         (props : list string) (url : string) (post : list string)
         (n : nat) (E : entries_t),
    split nl_char content = (pre ++ d :: props ++ url :: post)%list ->
    run n (split nl_char content) (0, []) = Ok (List.length pre, E) ->
    startswith "#EXTINF:" d = true ->
    is_excluded_group d = true
    \/ is_excluded_language (extract_title d) = true ->
    Forall (fun l => is_prop_line l = true) props ->
    skippable url = false ->
    run (S n) (split nl_char content) (0, [])
    = Ok (List.length pre + List.length props + 2, E)
    /\ (~ In url pre -> ~ In url post ->
        exists m, parse_m3u content = Ok m /\ od_mem url m = false).
Proof.
  intros content pre d props url post n E Hs R Hd Hx Hp Hu.
  assert (Hm : Forall (fun l => skippable l = true) props).
  { eapply Forall_impl; [|exact Hp]. intros l Hl. unfold is_prop_line in Hl.
    apply andb_true_iff in Hl as [Hl _]. unfold skippable. now rewrite Hl. }
  assert (R' : run (S n) (split nl_char content) (0, [])
               = Ok (List.length pre + List.length props + 2, E)).
  { replace (S n) with (n + 1) by lia. rewrite run_app, R. cbn [bind run].
    rewrite Hs, (excluded_block_step pre d props url post E Hd Hx Hm Hu).
    reflexivity. }
  split; [exact R'|]. intros Hpre Hpost.
  destruct (parse_m3u_total content) as [m P]. exists m. split; [exact P|].
  rewrite parse_m3u_unfold in P.
  destruct (parse_loop_after_run _ _ _ _ _ _ R' P) as [fuel' P'].
  apply parse_loop_inv in P' as (added2 & -> & K2).
  apply run_inv in R as (_ & added1 & -> & K1). cbn [app] in *.
  destruct (od_mem url (added1 ++ added2)%list) eqn:M; [|reflexivity].
  exfalso. apply od_mem_In in M. unfold od_keys in M. rewrite map_app in M.
  unfold keys_from in K1, K2. rewrite Forall_forall in K1, K2.
  rewrite Hs in K1, K2. apply in_app_or in M as [M|M].
  - destruct (K1 _ M) as (j & Hj & Hn).
    apply Hpre. eapply nth_error_in_prefix; [|exact Hn]. lia.
  - destruct (K2 _ M) as (j & Hj & Hn).
    apply Hpost.
    replace (pre ++ d :: props ++ url :: post)%list
      with ((pre ++ d :: props ++ [url]) ++ post)%list in Hn
      by (rewrite <- !app_assoc; cbn [app]; rewrite <- app_assoc; reflexivity).
    eapply nth_error_in_suffix; [|exact Hn].
    rewrite !length_app. cbn [List.length]. rewrite length_app. simpl. lia.
Qed.

(** C6 at a document that opens with an excluded block. *)
Lemma C6_excluded_block_witness :
  run 1 (split nl_char (join_lines [music_directive; "#KODIPROP:k=v";
                                     "http://x/radio"; "http://x/espn"]))
      (0, [])
  = Ok (3, [])
  /\ exists m,
      parse_m3u (join_lines [music_directive; "#KODIPROP:k=v";
                             "http://x/radio"; "http://x/espn"]) = Ok m
      /\ od_mem "http://x/radio" m = false.
Proof.
  assert (F : Forall (fun l => is_prop_line l = true) ["#KODIPROP:k=v"])
    by (repeat constructor).
  destruct (C6_excluded_block_adds_nothing
              (join_lines [music_directive; "#KODIPROP:k=v";
                           "http://x/radio"; "http://x/espn"])
              [] music_directive ["#KODIPROP:k=v"] "http://x/radio"
              ["http://x/espn"] 0 []
              eq_refl eq_refl eq_refl (or_introl eq_refl)
              F eq_refl) as [H1 H2].
  split; [exact H1|]. apply H2.
  - intros [].
  - intros [H|[]]. discriminate H.
Defined.

(** C6 fails as stated: the locator of an excluded block is a key of the
    parsed mapping when a retained block of the same document has the same
    locator. *)
Lemma C6_counterexample : ~ excluded_locator_always_absent.
Proof.
  intros H.
  specialize (H c6_doc [] music_directive [] "http://x/a"
                [sports_directive; "http://x/a"]
                [("http://x/a", [sports_directive])]
                eq_refl eq_refl (Forall_nil _) eq_refl
                (or_introl (or_intror (or_introl eq_refl))) eq_refl).
  vm_compute in H. discriminate H.
Qed.

(** A second way in, which is a slip of the scan and no part of the
    statement above: after a retained directive without a locator the scan
    steps over the next directive unread, and the locator of that excluded
    block is stored as a plain entry. *)
Example excluded_block_after_bare_directive :
  parse_m3u c6_slip_doc = Ok [("http://x/radio", [])].
Proof. reflexivity. Qed.

(** C7, as the code has it.  A source whose fetch fails, or gives the empty
    text, is left out and the run goes on with the others: the run's result
    is the rendering of the merge of the sources that loaded, in order; it is
    the same as without the skipped source; and the run ends without output
    exactly when every source fails or is empty. *)
Theorem C7_failed_sources_are_skipped :
  forall (urlopen : string -> option string) (sources : list string),
    main_on urlopen sources
    = Ok match loaded_sources urlopen 1 sources with
         | [] => None
         | _ :: _ =>
             Some (save_merged (merge_m3us (loaded_sources urlopen 1 sources)))
         end
    /\ (main_on urlopen sources = Ok None <->
        forall url, In url sources ->
                    urlopen url = None \/ urlopen url = Some EmptyString)
    /\ (forall (s1 : list string) (u : string) (s2 : list string),
           sources = (s1 ++ u :: s2)%list ->
           urlopen u = None \/ urlopen u = Some EmptyString ->
           main_on urlopen sources = main_on urlopen (s1 ++ s2)%list).
Proof.
  intros urlopen sources. split; [apply main_on_spec|]. split.
  - rewrite main_on_spec, <- (loaded_sources_nil urlopen sources 1).
    destruct (loaded_sources urlopen 1 sources); split; congruence.
  - intros s1 u s2 -> Hu. rewrite !main_on_spec, !loaded_sources_app.
    assert (Hskip : loaded_sources urlopen (1 + List.length s1) (u :: s2)
                    = loaded_sources urlopen (S (1 + List.length s1)) s2).
    { cbn [loaded_sources]. destruct Hu as [-> | ->]; reflexivity. }
    rewrite Hskip.
    set (l := (loaded_sources urlopen 1 s1
               ++ loaded_sources urlopen (S (1 + List.length s1)) s2)%list).
    set (l' := (loaded_sources urlopen 1 s1
                ++ loaded_sources urlopen (1 + List.length s1) s2)%list).
    assert (Hl : map snd l = map snd l').
    { unfold l, l'. rewrite !map_app. f_equal. apply loaded_sources_entries. }
    rewrite (merge_m3us_entries l l' Hl).
    destruct l, l'; try discriminate Hl; reflexivity.
Qed.

(** C7 fails as stated: when every fetch succeeds with the empty text, no
    source has failed and the run still ends without output. *)
Lemma C7_counterexample : ~ no_output_only_when_all_fetches_fail.
Proof.
  intros H.
  specialize (H all_fetches_empty eq_refl _ (or_introl eq_refl)).
  discriminate H.
Qed.

(** C8. The output is the header line, then for every entry in the order of
    the merged mapping its block lines and its locator, each line as stored
    and ended by a newline.  An entry with an empty block gives its locator
    alone.  When no stored line holds a newline, the lines of the output are
    exactly these. *)
Theorem C8_render_is_header_then_entries :
  forall merged : entries_t,
    save_merged merged
    = text_of_lines (header_line :: flat_map entry_lines merged)
    /\ header_line = "#EXTM3U url-tvg=" ++ dquote ++ EPG_URL ++ dquote
    /\ (forall url : string, entry_lines (url, []) = [url])
    /\ (Forall (fun ub => Forall (fun l => str_in nl l = false) (entry_lines ub))
               merged ->
        split nl_char (save_merged merged)
        = (header_line :: flat_map entry_lines merged ++ [EmptyString])%list).
Proof.
  intros merged.
  assert (R : save_merged merged
              = text_of_lines (header_line :: flat_map entry_lines merged)).
  { unfold save_merged. rewrite write_entries. unfold write.
    cbn [text_of_lines append]. now rewrite !append_assoc. }
  split; [exact R|]. split; [reflexivity|]. split; [reflexivity|].
  intros H. rewrite R, split_text_of_lines; [reflexivity|].
  constructor; [reflexivity|]. now apply Forall_flat_map.
Qed.

(** C9. [parse_m3u] returns a mapping for every text: no read is out of
    range and the loops end within their fuel.  A directive without the
    category attribute has the empty category, one without a comma has the
    empty title; neither is excluded for it and its block is stored as any
    other.  [merge_m3us] has no partial step; both results have each key
    once. *)
Theorem C9_parse_and_merge_never_raise :
  (forall content : string,
      exists m, parse_m3u content = Ok m /\ NoDup (od_keys m))
  /\ (forall d : string,
         search_group_title d = None ->
         get_group_title d = EmptyString /\ is_excluded_group d = false)
  /\ (forall d : string,
         str_in "," d = false ->
         extract_title d = EmptyString
         /\ is_excluded_language (extract_title d) = false)
  /\ (forall (pre : list string) (d : string) (props : list string)
             (url : string) (post : list string) (E : entries_t),
         startswith "#EXTINF:" d = true ->
         search_group_title d = None ->
         str_in "," d = false ->
         Forall (fun l => is_prop_line l = true) props ->
         is_locator url = true ->
         loop_body (pre ++ d :: props ++ url :: post) (List.length pre, E)
         = Ok (List.length pre + List.length props + 2,
               od_add_new url (d :: props) E))
  /\ (forall sources : odict entries_t, NoDup (od_keys (merge_m3us sources))).
Proof.
  assert (Cat : forall d, search_group_title d = None ->
                  get_group_title d = EmptyString /\ is_excluded_group d = false).
  { intros d H. split.
    - unfold get_group_title. now rewrite H.
    - destruct (is_excluded_group d) eqn:E; [|reflexivity].
      now apply excluded_has_attribute in E. }
  assert (Tit : forall d, str_in "," d = false ->
                  extract_title d = EmptyString
                  /\ is_excluded_language (extract_title d) = false).
  { intros d H. unfold extract_title.
    rewrite (search_title_no_comma d H). split; reflexivity. }
  split; [|split; [exact Cat|split; [exact Tit|split]]].
  - intros content. destruct (parse_m3u_total content) as [m P].
    exists m. split; [exact P | exact (parse_m3u_NoDup content m P)].
  - intros pre d props url post E Hd Hg Hc Hp Hu.
    apply retained_block_step; try assumption.
    + apply (Cat d Hg).
    + apply (Tit d Hc).
  - intros sources. rewrite merge_m3us_keys.
    apply remove_later_duplicates_NoDup.
Qed.

(** C10, as the code has it.  When an empty line stands between the
    property lines of a retained directive and the locator, the iteration
    that starts on the directive stores nothing and steps over the empty
    line, and the next iteration stores the locator as a plain entry unless
    it is already a key; when it is not, the parsed mapping has the locator
    with an empty block. *)
Theorem C10_empty_line_severs_block :
  forall (content : string) (pre : list string) (d : string)
         (props : list string) (url : string) (post : list string)
         (n : nat) (E : entries_t),
    split nl_char content
    = (pre ++ d :: props ++ EmptyString :: url :: post)%list ->
    run n (split nl_char content) (0, []) = Ok (List.length pre, E) ->
    startswith "#EXTINF:" d = true ->
    is_excluded_group d = false ->
    is_excluded_language (extract_title d) = false ->
    Forall (fun l => is_prop_line l = true) props ->
    is_locator url = true ->
    run (S n) (split nl_char content) (0, [])
    = Ok (List.length pre + List.length props + 2, E)
    /\ run (S (S n)) (split nl_char content) (0, [])
       = Ok (List.length pre + List.length props + 3, od_add_new url [] E)
    /\ (od_mem url E = false ->
        exists m, parse_m3u content = Ok m /\ od_get url m = Some []).
Proof.
  intros content pre d props url post n E Hs R Hd Hg Hl Hp Hu.
  assert (R1 : run (S n) (split nl_char content) (0, [])
               = Ok (List.length pre + List.length props + 2, E)).
  { replace (S n) with (n + 1) by lia. rewrite run_app, R. cbn [bind run].
    rewrite Hs.
    rewrite (retained_block_no_locator_step pre d props EmptyString
               (url :: post) E Hd Hg Hl Hp eq_refl eq_refl).
    reflexivity. }
  assert (R2 : run (S (S n)) (split nl_char content) (0, [])
               = Ok (List.length pre + List.length props + 3,
                     od_add_new url [] E)).
  { replace (S (S n)) with (S n + 1) by lia. rewrite run_app, R1.
    cbn [bind run]. rewrite Hs.
    replace (pre ++ d :: props ++ EmptyString :: url :: post)%list
      with ((pre ++ d :: props ++ [EmptyString]) ++ url :: post)%list
      by (rewrite <- !app_assoc; cbn [app]; rewrite <- app_assoc; reflexivity).
    replace (List.length pre + List.length props + 2)
      with (List.length (pre ++ d :: props ++ [EmptyString])%list)
      by (rewrite !length_app; cbn [List.length]; rewrite length_app; simpl; lia).
    rewrite (plain_locator_step _ url post E Hu). cbn [bind].
    f_equal. f_equal.
    rewrite !length_app. cbn [List.length]. rewrite length_app. simpl. lia. }
  split; [exact R1|]. split; [exact R2|]. intros Hnew.
  destruct (parse_m3u_total content) as [m P]. exists m. split; [exact P|].
  rewrite parse_m3u_unfold in P.
  destruct (parse_loop_after_run _ _ _ _ _ _ R2 P) as [fuel' P'].
  apply (parse_loop_get_stable _ _ _ _ _ _ _ P').
  rewrite od_get_add_new, String.eqb_refl.
  rewrite od_mem_get in Hnew. now destruct (od_get url E).
Qed.

(** C10 at a document that opens with such a block. *)
Lemma C10_empty_line_witness :
  run 2 (split nl_char c10_empty_doc) (0, []) = Ok (4, [("http://x/espn", [])])
  /\ exists m,
      parse_m3u c10_empty_doc = Ok m /\ od_get "http://x/espn" m = Some [].
Proof.
  assert (F : Forall (fun l => is_prop_line l = true) ["#KODIPROP:k=v"])
    by (repeat constructor).
  destruct (C10_empty_line_severs_block
              c10_empty_doc [] sports_directive ["#KODIPROP:k=v"]
              "http://x/espn" [] 0 []
              eq_refl eq_refl eq_refl eq_refl eq_refl F eq_refl)
    as (_ & H2 & H3).
  split; [exact H2 | exact (H3 eq_refl)].
Defined.

(** C10 fails as stated for a line of blanks: such a line is taken as the
    locator of the block, which is stored under it. *)
Lemma C10_counterexample : ~ blank_line_drops_block.
Proof.
  intros H.
  assert (F : Forall (fun l => is_prop_line l = true) ["#KODIPROP:k=v"])
    by (repeat constructor).
  specialize (H c10_doc sports_directive ["#KODIPROP:k=v"] " " "http://x/espn"
                eq_refl eq_refl eq_refl eq_refl F eq_refl eq_refl).
  vm_compute in H. discriminate H.
Qed.

(** What the code computes on that document. *)
Example c10_doc_value :
  parse_m3u c10_doc
  = Ok [(" ", [sports_directive; "#KODIPROP:k=v"]); ("http://x/espn", [])].
Proof. reflexivity. Qed.

(** C7 at two sources of which the second fails. *)
Lemma C7_failed_source_witness :
  main_on second_fetch_fails ["a"; "b"] = main_on second_fetch_fails ["a"].
Proof.
  exact (proj2 (proj2 (C7_failed_sources_are_skipped second_fetch_fails ["a"; "b"]))
           ["a"] "b" [] eq_refl (or_introl eq_refl)).
Defined.

(** C8 at a mapping with a block entry and a plain entry. *)
Lemma C8_render_witness :
  split nl_char (save_merged [("http://x/a", [sports_directive; "#KODIPROP:k=v"]);
                              ("http://x/b", [])])
  = [header_line; sports_directive; "#KODIPROP:k=v"; "http://x/a";
     "http://x/b"; EmptyString].
Proof.
  apply (proj2 (proj2 (proj2
           (C8_render_is_header_then_entries
              [("http://x/a", [sports_directive; "#KODIPROP:k=v"]);
               ("http://x/b", [])])))).
  repeat constructor.
Defined.

(** C9 at a directive with neither attribute nor comma. *)
Lemma C9_bare_directive_witness :
  loop_body [bare_directive; "http://x/a"] (0, [])
  = Ok (2, [("http://x/a", [bare_directive])]).
Proof.
  exact (proj1 (proj2 (proj2 (proj2 C9_parse_and_merge_never_raise)))
           [] bare_directive [] "http://x/a" [] []
           eq_refl eq_refl eq_refl (Forall_nil _) eq_refl).
Defined.

(* ================================================================== *)
(** * Further properties *)

(** ** What the parser stores *)

Lemma collect_loop_inv (fuel : nat) (lines : list string) :
  forall (i : nat) (block : list string) (i' : nat) (block' : list string),
    collect_loop fuel lines i block = Ok (i', block') ->
    exists props,
      block' = (block ++ props)%list
      /\ Forall (fun l => is_prop_line l = true) props
      /\ Forall (fun l => In l lines) props.
Proof.
  induction fuel as [|f IH]; intros i block i' block' H; simpl in H;
    [discriminate|].
  destruct (Nat.ltb i (List.length lines)).
  - destruct (getitem lines i) as [l| |] eqn:G; cbn [bind] in H;
      try discriminate.
    destruct (is_prop_line l) eqn:P.
    + apply IH in H as (props & -> & HP & HI). exists (l :: props).
      rewrite <- app_assoc. split; [reflexivity|].
      apply getitem_Ok, nth_error_In in G. split; constructor; assumption.
    + injection H as <- <-. exists []. rewrite app_nil_r. repeat constructor.
  - injection H as <- <-. exists []. rewrite app_nil_r. repeat constructor.
Qed.

(** An iteration leaves the mapping as it is, or appends one item with a new
    key; the item has the stored shape and is made of lines of the
    document. *)
Lemma loop_body_entry (lines : list string) (i : nat) (E : entries_t)
      (i' : nat) (E' : entries_t) :
  loop_body lines (i, E) = Ok (i', E') ->
  E' = E \/
  exists url block,
    od_mem url E = false /\ E' = (E ++ [(url, block)])%list
    /\ entry_shape (url, block) = true
    /\ Forall (fun l => In l lines) (entry_lines (url, block)).
Proof.
  assert (Add : forall url block,
            entry_shape (url, block) = true ->
            Forall (fun l => In l lines) (entry_lines (url, block)) ->
            od_add_new url block E = E \/
            exists url0 block0,
              od_mem url0 E = false
              /\ od_add_new url block E = (E ++ [(url0, block0)])%list
              /\ entry_shape (url0, block0) = true
              /\ Forall (fun l => In l lines) (entry_lines (url0, block0))).
  { intros url block Hs Hl. rewrite od_add_new_unfold.
    destruct (od_mem url E) eqn:M; [now left|].
    right. exists url, block. auto. }
  unfold loop_body. intros H.
  destruct (getitem lines i) as [line| |] eqn:G; cbn [bind] in H; try discriminate.
  apply getitem_Ok, nth_error_In in G.
  destruct (startswith "#EXTINF:" line) eqn:D.
  - destruct (is_excluded_group line) eqn:XG.
    { destruct (skip_block _ lines i) as [i1| |]; cbn [bind] in H;
        try discriminate.
      injection H as _ <-. now left. }
    destruct (is_excluded_language _) eqn:XL.
    { destruct (skip_block _ lines i) as [i1| |]; cbn [bind] in H;
        try discriminate.
      injection H as _ <-. now left. }
    destruct (collect_loop _ lines (S i) _) as [[i1 block]| |] eqn:C;
      cbn [bind] in H; try discriminate.
    apply collect_loop_inv in C as (props & -> & HP & HI).
    destruct (Nat.ltb i1 (List.length lines)); [|injection H as _ <-; now left].
    destruct (getitem lines i1) as [url| |] eqn:G1; cbn [bind] in H;
      try discriminate.
    apply getitem_Ok, nth_error_In in G1.
    destruct (truthy url && negb (startswith "#" url)) eqn:U;
      injection H as _ <-; [|now left].
    apply Add.
    + unfold entry_shape, block_shape, retained_directive, is_locator.
      cbn [fst snd app]. rewrite U, D, XG, XL. cbn [negb andb].
      apply forallb_forall. rewrite Forall_forall in HP. exact HP.
    + unfold entry_lines. cbn [fst snd app]. constructor; [exact G|].
      apply Forall_app. split; [exact HI | repeat constructor; exact G1].
  - destruct (truthy line && negb (startswith "#" line)) eqn:U;
      injection H as _ <-; [|now left].
    apply Add.
    + unfold entry_shape, is_locator. cbn [fst snd block_shape].
      now rewrite U.
    + unfold entry_lines. cbn [fst snd app]. repeat constructor. exact G.
Qed.

Lemma run_entries (n : nat) (lines : list string) :
  forall (st st' : nat * entries_t),
    run n lines st = Ok st' ->
    Forall (fun ub => entry_shape ub = true
                      /\ Forall (fun l => In l lines) (entry_lines ub))
           (snd st) ->
    Forall (fun ub => entry_shape ub = true
                      /\ Forall (fun l => In l lines) (entry_lines ub))
           (snd st').
Proof.
  induction n as [|n IH]; intros [i E] [i' E'] H HE; cbn [run] in H.
  - now injection H as <- <-.
  - destruct (loop_body lines (i, E)) as [[i1 E1]| |] eqn:B; cbn [bind] in H;
      try discriminate.
    apply (IH _ _ H). cbn [snd] in *.
    apply loop_body_entry in B as [->|(url & block & _ & -> & Hs & Hl)];
      [exact HE|].
    apply Forall_app. split; [exact HE|]. repeat constructor; assumption.
Qed.

Lemma parse_m3u_entries (content : string) (m : entries_t) :
  parse_m3u content = Ok m ->
  Forall (fun ub => entry_shape ub = true
                    /\ Forall (fun l => In l (split nl_char content))
                              (entry_lines ub)) m.
Proof.
  rewrite parse_m3u_unfold. intros H.
  apply parse_loop_as_run in H as (n & i' & R & _).
  apply (run_entries _ _ _ _ R). constructor.
Qed.

Lemma entry_shape_inv (url : string) (block : list string) :
  entry_shape (url, block) = true ->
  is_locator url = true
  /\ (block = [] \/
      exists d props,
        block = d :: props
        /\ startswith "#EXTINF:" d = true
        /\ is_excluded_group d = false
        /\ is_excluded_language (extract_title d) = false
        /\ Forall (fun l => is_prop_line l = true) props).
Proof.
  unfold entry_shape. cbn [fst snd]. intros H.
  apply andb_true_iff in H as [Hu Hb]. split; [exact Hu|].
  destruct block as [|d props]; [now left|]. right. exists d, props.
  cbn [block_shape] in Hb. apply andb_true_iff in Hb as [Hd Hp].
  unfold retained_directive in Hd.
  apply andb_true_iff in Hd as [Hd HL].
  apply andb_true_iff in Hd as [Hd HG].
  apply negb_true_iff in HL, HG.
  rewrite forallb_forall in Hp. repeat split; try assumption.
  now apply Forall_forall.
Qed.

(** X1. Every key of the parsed mapping is a line of the document that is
    not empty and does not start with the marker. *)
Theorem X1_parse_keys_are_locator_lines :
  forall (content : string) (m : entries_t) (k : string),
    parse_m3u content = Ok m ->
    In k (od_keys m) ->
    is_locator k = true /\ In k (split nl_char content).
Proof.
  intros content m k P Hk.
  apply parse_m3u_entries in P. rewrite Forall_forall in P.
  unfold od_keys in Hk. apply in_map_iff in Hk as ([url block] & <- & Hin).
  destruct (P _ Hin) as [Hs Hl]. cbn [fst]. split.
  - now apply entry_shape_inv in Hs.
  - rewrite Forall_forall in Hl. apply Hl.
    unfold entry_lines. cbn [fst snd]. apply in_or_app. right. now left.
Qed.

Lemma X1_witness :
  is_locator "http://x/espn" = true
  /\ In "http://x/espn" (split nl_char x_doc).
Proof.
  exact (X1_parse_keys_are_locator_lines x_doc x_entries "http://x/espn"
           eq_refl (or_introl eq_refl)).
Defined.

(** X2. Every block of the parsed mapping is empty, or is a directive line
    that neither exclusion test rejects, followed by lines that start with
    the marker and are no directive; all of them are lines of the
    document. *)
Theorem X2_parse_blocks_are_retained :
  forall (content : string) (m : entries_t) (url : string)
         (block : list string),
    parse_m3u content = Ok m ->
    In (url, block) m ->
    Forall (fun l => In l (split nl_char content)) block
    /\ (block = [] \/
        exists d props,
          block = d :: props
          /\ startswith "#EXTINF:" d = true
          /\ is_excluded_group d = false
          /\ is_excluded_language (extract_title d) = false
          /\ Forall (fun l => is_prop_line l = true) props).
Proof.
  intros content m url block P Hin.
  apply parse_m3u_entries in P. rewrite Forall_forall in P.
  destruct (P _ Hin) as [Hs Hl]. split.
  - unfold entry_lines in Hl. cbn [fst snd] in Hl.
    now apply Forall_app in Hl as [Hl _].
  - now apply entry_shape_inv in Hs.
Qed.

Lemma X2_witness :
  Forall (fun l => In l (split nl_char x_doc))
         [sports_directive; "#KODIPROP:k=v"]
  /\ ([sports_directive; "#KODIPROP:k=v"] = [] \/
      exists d props,
        [sports_directive; "#KODIPROP:k=v"] = d :: props
        /\ startswith "#EXTINF:" d = true
        /\ is_excluded_group d = false
        /\ is_excluded_language (extract_title d) = false
        /\ Forall (fun l => is_prop_line l = true) props).
Proof.
  exact (X2_parse_blocks_are_retained x_doc x_entries "http://x/espn"
           [sports_directive; "#KODIPROP:k=v"] eq_refl (or_introl eq_refl)).
Defined.

(** X3. A document without a locator line (only marked lines and empty
    lines) parses to the empty mapping. *)
Theorem X3_no_locator_gives_empty_mapping :
  forall content : string,
    (forall line, In line (split nl_char content) -> is_locator line = false) ->
    parse_m3u content = Ok [].
Proof.
  intros content H. destruct (parse_m3u_total content) as [m P].
  rewrite P. f_equal. destruct m as [|[url block] m]; [reflexivity|].
  exfalso. pose proof (parse_m3u_entries content _ P) as F.
  inversion F as [|? ? [Hs Hl] _]; subst.
  apply entry_shape_inv in Hs as [Hu _].
  rewrite Forall_forall in Hl.
  assert (Hin : In url (split nl_char content)).
  { apply Hl. unfold entry_lines. cbn [fst snd]. apply in_or_app. right. now left. }
  rewrite (H _ Hin) in Hu. discriminate.
Qed.

Lemma X3_witness :
  parse_m3u (join_lines ["#EXTM3U"; sports_directive; "#KODIPROP:k=v";
                         EmptyString])
  = Ok [].
Proof.
  apply X3_no_locator_gives_empty_mapping.
  intros line [<-|[<-|[<-|[<-|[]]]]]; reflexivity.
Defined.

(** X4. The parsed mapping never has more entries than the document has
    locator lines. *)
Theorem X4_parse_size_bound :
  forall (content : string) (m : entries_t),
    parse_m3u content = Ok m ->
    List.length m <= List.length (filter is_locator (split nl_char content)).
Proof.
  intros content m P.
  replace (List.length m) with (List.length (od_keys m))
    by (unfold od_keys; apply length_map).
  apply NoDup_incl_length; [exact (parse_m3u_NoDup content m P)|].
  intros k Hk. apply filter_In.
  pose proof (parse_m3u_entries content m P) as F. rewrite Forall_forall in F.
  unfold od_keys in Hk. apply in_map_iff in Hk as ([url block] & <- & Hin).
  destruct (F _ Hin) as [Hs Hl]. cbn [fst]. split.
  - rewrite Forall_forall in Hl. apply Hl.
    unfold entry_lines. cbn [fst snd]. apply in_or_app. right. now left.
  - now apply entry_shape_inv in Hs.
Qed.

Lemma X4_witness :
  List.length x_entries
  <= List.length (filter is_locator (split nl_char x_doc)).
Proof. exact (X4_parse_size_bound x_doc x_entries eq_refl). Defined.

(** ** The merger as a filter *)

Lemma filter_id {A : Type} (f : A -> bool) (l : list A) :
  (forall x, In x l -> f x = true) -> filter f l = l.
Proof.
  induction l as [|x l IH]; intros H; simpl; [reflexivity|].
  rewrite (H x (or_introl eq_refl)), IH; [reflexivity|].
  intros y Hy. apply H. now right.
Qed.

Lemma filter_none {A : Type} (f : A -> bool) (l : list A) :
  (forall x, In x l -> f x = false) -> filter f l = [].
Proof.
  induction l as [|x l IH]; intros H; simpl; [reflexivity|].
  rewrite (H x (or_introl eq_refl)). apply IH.
  intros y Hy. apply H. now right.
Qed.

Lemma merge_source_items (e : entries_t) :
  forall M : entries_t,
    merge_source M e
    = (M ++ filter (fun ub => negb (od_mem (fst ub) M)) (first_items e))%list.
Proof.
  induction e as [|[k v] e IH]; intros M.
  - simpl. now rewrite app_nil_r.
  - change (merge_source M ((k, v) :: e))
      with (merge_source (od_add_new k v M) e).
    rewrite IH, od_add_new_unfold. cbn [first_items filter fst].
    destruct (od_mem k M) eqn:K; cbn [negb].
    + f_equal. rewrite filter_filter. apply filter_ext_in. intros [y w] _.
      cbn [fst]. destruct (String.eqb k y) eqn:Y; [|reflexivity].
      apply String.eqb_eq in Y; subst y. now rewrite K.
    + rewrite <- app_assoc. cbn [app]. f_equal. f_equal.
      rewrite filter_filter. apply filter_ext_in. intros [y w] _. cbn [fst].
      rewrite od_mem_app_one, negb_orb. apply andb_comm.
Qed.

Lemma first_items_incl (e : entries_t) (x : string * list string) :
  In x (first_items e) -> In x e.
Proof.
  induction e as [|[k v] e IH]; cbn [first_items]; [tauto|].
  intros [<-|H]; [now left|]. right. apply IH.
  now apply filter_In in H.
Qed.

Lemma map_fst_filter (f : string -> bool) (l : entries_t) :
  map fst (filter (fun ub => f (fst ub)) l) = filter f (map fst l).
Proof.
  induction l as [|[y w] l IH]; simpl; [reflexivity|].
  destruct (f y); simpl; now rewrite IH.
Qed.

Lemma first_items_keys (e : entries_t) :
  od_keys (first_items e) = remove_later_duplicates (od_keys e).
Proof.
  induction e as [|[k v] e IH]; [reflexivity|].
  cbn [first_items od_keys map fst remove_later_duplicates].
  f_equal. fold (od_keys e). rewrite <- IH. unfold od_keys.
  apply (map_fst_filter (fun y => negb (String.eqb k y))).
Qed.

Lemma remove_later_duplicates_In (l : list string) (k : string) :
  In k l -> In k (remove_later_duplicates l).
Proof.
  induction l as [|x l IH]; cbn [remove_later_duplicates]; [tauto|].
  intros [->|H]; [now left|].
  destruct (String.eqb x k) eqn:E.
  - apply String.eqb_eq in E. now left.
  - right. apply filter_In. split; [now apply IH | now rewrite E].
Qed.

Lemma first_items_NoDup (e : entries_t) :
  NoDup (od_keys e) -> first_items e = e.
Proof.
  induction e as [|[k v] e IH]; cbn [first_items od_keys map fst]; intros H;
    [reflexivity|].
  inversion H as [|? ? Hk He]; subst. rewrite (IH He). f_equal.
  apply filter_id. intros [y w] Hy. cbn [fst].
  destruct (String.eqb k y) eqn:E; [|reflexivity].
  apply String.eqb_eq in E; subst y. exfalso. apply Hk.
  apply (in_map fst) in Hy. exact Hy.
Qed.

Lemma merge_m3us_items (sources : odict entries_t) :
  merge_m3us sources = first_items (List.concat (map snd sources)).
Proof.
  unfold merge_m3us. rewrite merge_fold_flat, merge_source_items.
  cbn [app od_mem negb]. apply filter_all.
Qed.

Lemma merge_m3us_snoc (sources : odict entries_t) (name : string)
      (e : entries_t) :
  merge_m3us (sources ++ [(name, e)])%list
  = merge_source (merge_m3us sources) e.
Proof. unfold merge_m3us. now rewrite fold_left_app. Qed.

(** X5. The merged mapping is the list of all items of the sources, source
    after source, without every item whose locator stands earlier in that
    list. *)
Theorem X5_merge_is_first_items :
  forall sources : odict entries_t,
    merge_m3us sources = first_items (List.concat (map snd sources)).
Proof.
  intros sources. unfold merge_m3us.
  rewrite merge_fold_flat, merge_source_items.
  cbn [app od_mem negb]. apply filter_all.
Qed.

(** X6. When no locator occurs twice among the sources, merging is plain
    concatenation: every item is kept, in source order.  In particular the
    merge of one source with distinct keys is that source. *)
Theorem X6_merge_without_duplicates_is_concat :
  forall sources : odict entries_t,
    NoDup (od_keys (List.concat (map snd sources))) ->
    merge_m3us sources = List.concat (map snd sources).
Proof.
  intros sources H. rewrite merge_m3us_items. now apply first_items_NoDup.
Qed.

Lemma X6_witness :
  merge_m3us [("Source 1 (a)", x_entries);
              ("Source 2 (b)", [("http://x/other", [])])]
  = List.concat (map snd [("Source 1 (a)", x_entries);
                          ("Source 2 (b)", [("http://x/other", [])])]).
Proof.
  apply X6_merge_without_duplicates_is_concat.
  repeat constructor; simpl; intuition discriminate.
Defined.

(** X7. A source that brings no new locator leaves the merged mapping as it
    was. *)
Theorem X7_merge_absorbs_known_source :
  forall (sources : odict entries_t) (name : string) (e : entries_t),
    (forall k, In k (od_keys e) -> od_mem k (merge_m3us sources) = true) ->
    merge_m3us (sources ++ [(name, e)])%list = merge_m3us sources.
Proof.
  intros sources name e H. rewrite merge_m3us_snoc, merge_source_items.
  rewrite filter_none; [apply app_nil_r|].
  intros [k v] Hin. cbn [fst]. apply first_items_incl in Hin.
  rewrite H; [reflexivity|]. apply (in_map fst) in Hin. exact Hin.
Qed.

Lemma X7_witness :
  merge_m3us ([("Source 1 (a)", x_entries)]
              ++ [("Source 2 (b)", [("http://x/plain", ["#EXTINF:-1,Late"])])])%list
  = merge_m3us [("Source 1 (a)", x_entries)].
Proof.
  apply X7_merge_absorbs_known_source.
  intros k [<-|[]]. reflexivity.
Defined.

(** X8. The merger invents nothing and loses no locator: every item of the
    merged mapping is an item of one of the sources, and every locator of
    every source is a key of the merged mapping. *)
Theorem X8_merge_items_come_from_sources :
  forall sources : odict entries_t,
    (forall (k : string) (b : list string),
        In (k, b) (merge_m3us sources) ->
        exists name e, In (name, e) sources /\ In (k, b) e)
    /\ (forall (name : string) (e : entries_t) (k : string),
           In (name, e) sources -> In k (od_keys e) ->
           od_mem k (merge_m3us sources) = true).
Proof.
  intros sources. rewrite merge_m3us_items. split.
  - intros k b H. apply first_items_incl, in_concat in H as (e & He & Hin).
    apply in_map_iff in He as ([name e'] & <- & Hs). now exists name, e'.
  - intros name e k Hs Hk. apply od_mem_In.
    rewrite first_items_keys. apply remove_later_duplicates_In.
    unfold od_keys in *. rewrite concat_map. apply in_concat.
    exists (map fst e). split; [|exact Hk].
    apply in_map_iff. exists e. split; [reflexivity|].
    apply in_map_iff. now exists (name, e).
Qed.

Lemma X8_witness :
  od_mem "http://x/plain" (merge_m3us [("Source 1 (a)", x_entries)]) = true.
Proof.
  exact (proj2 (X8_merge_items_come_from_sources [("Source 1 (a)", x_entries)])
           "Source 1 (a)" x_entries "http://x/plain"
           (or_introl eq_refl) (or_intror (or_introl eq_refl))).
Defined.

(** ** Parsing what the serializer wrote *)

Lemma save_merged_text (merged : entries_t) :
  save_merged merged
  = text_of_lines (header_line :: flat_map entry_lines merged).
Proof.
  unfold save_merged. rewrite write_entries. unfold write.
  cbn [text_of_lines append]. now rewrite !append_assoc.
Qed.

Lemma save_merged_lines (merged : entries_t) :
  Forall (fun l => str_in nl l = false) (flat_map entry_lines merged) ->
  split nl_char (save_merged merged)
  = (header_line :: flat_map entry_lines merged ++ [EmptyString])%list.
Proof.
  intros H. rewrite save_merged_text, split_text_of_lines; [reflexivity|].
  constructor; [reflexivity | exact H].
Qed.

Lemma parse_loop_step (fuel : nat) (lines : list string) (i : nat)
      (E : entries_t) (st' : nat * entries_t) :
  i < List.length lines ->
  loop_body lines (i, E) = Ok st' ->
  parse_loop (S fuel) lines (i, E) = parse_loop fuel lines st'.
Proof.
  intros Hi B. cbn [parse_loop fst snd].
  apply Nat.ltb_lt in Hi. now rewrite Hi, B.
Qed.

Lemma header_step (rest : list string) (E : entries_t) :
  loop_body (header_line :: rest) (0, E) = Ok (1, E).
Proof. reflexivity. Qed.

Lemma empty_line_step (pre post : list string) (E : entries_t) :
  loop_body (pre ++ EmptyString :: post) (List.length pre, E)
  = Ok (S (List.length pre), E).
Proof. unfold loop_body. now rewrite getitem_mid. Qed.

Lemma length_mid (pre : list string) (x : string) (post : list string) :
  List.length pre < List.length (pre ++ x :: post).
Proof. rewrite length_app. simpl. lia. Qed.

(** The scan over the lines of a list of well-shaped items with new,
    distinct keys stores exactly these items. *)
Lemma parse_loop_entries (m : entries_t) :
  forall (pre : list string) (E : entries_t) (fuel : nat),
    Forall (fun ub => entry_shape ub = true) m ->
    NoDup (od_keys (E ++ m)%list) ->
    List.length (flat_map entry_lines m) + 1 < fuel ->
    parse_loop fuel (pre ++ flat_map entry_lines m ++ [EmptyString])
               (List.length pre, E)
    = Ok (E ++ m)%list.
Proof.
  induction m as [|[url block] m IH]; intros pre E fuel Hs Hn Hf.
  - cbn [flat_map app List.length] in *. rewrite app_nil_r.
    destruct fuel as [|[|f]]; [lia | lia |].
    rewrite (parse_loop_step _ _ _ _ _ (length_mid pre _ [])
               (empty_line_step pre [] E)).
    cbn [parse_loop fst snd].
    replace (Nat.ltb (S (List.length pre)) (List.length (pre ++ [EmptyString])))
      with false; [reflexivity|].
    symmetry. apply Nat.ltb_ge. rewrite length_app. simpl. lia.
  - inversion Hs as [|? ? Hs1 Hs2]; subst.
    apply entry_shape_inv in Hs1 as [Hu Hb].
    assert (Hfresh : od_mem url E = false).
    { destruct (od_mem url E) eqn:M; [|reflexivity]. exfalso.
      apply od_mem_In in M. unfold od_keys in Hn, M.
      rewrite map_app in Hn. cbn [map fst] in Hn.
      apply NoDup_remove_2 in Hn. apply Hn, in_or_app. now left. }
    assert (Hn' : NoDup (od_keys ((E ++ [(url, block)]) ++ m)%list))
      by (rewrite <- app_assoc; exact Hn).
    cbn [flat_map] in Hf. rewrite length_app in Hf.
    unfold entry_lines in Hf at 1. cbn [fst snd] in Hf.
    rewrite length_app in Hf. cbn [List.length] in Hf.
    destruct fuel as [|f]; [lia|].
    cbn [flat_map]. unfold entry_lines at 1. cbn [fst snd].
    destruct Hb as [-> | (d & props & -> & Hd & Hg & Hl & Hp)].
    + cbn [app].
      rewrite (parse_loop_step _ _ _ _ _ (length_mid pre _ _)
                 (plain_locator_step pre url _ E Hu)).
      rewrite od_add_new_unfold, Hfresh.
      specialize (IH (pre ++ [url])%list (E ++ [(url, [])])%list f Hs2 Hn').
      rewrite <- !app_assoc, length_app in IH. cbn [app List.length] in IH.
      replace (List.length pre + 1) with (S (List.length pre)) in IH by lia.
      rewrite IH; [reflexivity|].
      cbn [List.length] in Hf. lia.
    + replace (pre ++ (((d :: props) ++ [url]) ++ flat_map entry_lines m)
                   ++ [EmptyString])%list
        with (pre ++ d :: props ++ url
                  :: (flat_map entry_lines m ++ [EmptyString]))%list
        by (rewrite <- ?app_assoc; cbn [app]; rewrite <- ?app_assoc;
            reflexivity).
      rewrite (parse_loop_step _ _ _ _ _ (length_mid pre _ _)
                 (retained_block_step pre d props url _ E Hd Hg Hl Hp Hu)).
      rewrite od_add_new_unfold, Hfresh.
      specialize (IH (pre ++ d :: props ++ [url])%list
                     (E ++ [(url, d :: props)])%list f Hs2 Hn').
      replace (List.length (pre ++ d :: props ++ [url])%list)
        with (List.length pre + List.length props + 2) in IH
        by (rewrite length_app; cbn [List.length]; rewrite length_app;
            simpl; lia).
      replace ((pre ++ d :: props ++ [url]) ++ flat_map entry_lines m
                   ++ [EmptyString])%list
        with (pre ++ d :: props ++ url
                  :: (flat_map entry_lines m ++ [EmptyString]))%list in IH
        by (rewrite <- ?app_assoc; cbn [app]; rewrite <- ?app_assoc;
            reflexivity).
      rewrite IH; [now rewrite <- app_assoc|].
      cbn [List.length] in Hf. lia.
Qed.

Lemma save_merged_truthy (merged : entries_t) :
  truthy (save_merged merged) = true.
Proof. now rewrite save_merged_text. Qed.

Lemma parse_saved (m : entries_t) :
  NoDup (od_keys m) ->
  Forall (fun ub => entry_shape ub = true) m ->
  Forall (fun l => str_in nl l = false) (flat_map entry_lines m) ->
  parse_m3u (save_merged m) = Ok m.
Proof.
  intros Hn Hs Hl. rewrite parse_m3u_unfold, (save_merged_lines m Hl).
  rewrite (parse_loop_step _ _ 0 [] (1, []));
    [| simpl; lia | apply header_step].
  apply (parse_loop_entries m [header_line] [] _ Hs Hn).
  cbn [List.length]. rewrite length_app. simpl. lia.
Qed.

(** X9. Round trip: a mapping with distinct keys, whose items have the shape
    the parser stores and whose lines hold no newline, is read back by
    [parse_m3u] from the text that [save_merged] writes for it. *)
Theorem X9_parse_reads_back_what_save_writes :
  forall m : entries_t,
    NoDup (od_keys m) ->
    Forall (fun ub => entry_shape ub = true) m ->
    Forall (fun l => str_in nl l = false) (flat_map entry_lines m) ->
    parse_m3u (save_merged m) = Ok m.
Proof.
  intros m Hn Hs Hl. rewrite parse_m3u_unfold, (save_merged_lines m Hl).
  rewrite (parse_loop_step _ _ 0 [] (1, []));
    [| simpl; lia | apply header_step].
  apply (parse_loop_entries m [header_line] [] _ Hs Hn).
  cbn [List.length]. rewrite length_app. simpl. lia.
Qed.

Lemma X9_witness : parse_m3u (save_merged x_entries) = Ok x_entries.
Proof.
  apply X9_parse_reads_back_what_save_writes; repeat constructor;
    simpl; intuition discriminate.
Defined.

Lemma parse_m3u_no_newline (content : string) (m : entries_t) :
  parse_m3u content = Ok m ->
  Forall (fun l => str_in nl l = false) (flat_map entry_lines m).
Proof.
  intros P. apply parse_m3u_entries in P. apply Forall_flat_map.
  eapply Forall_impl; [|exact P]. intros ub [_ Hl].
  eapply Forall_impl; [|exact Hl]. intros l Hin.
  pose proof (split_no_nl content) as F. rewrite Forall_forall in F. auto.
Qed.

Lemma parse_m3u_shapes (content : string) (m : entries_t) :
  parse_m3u content = Ok m -> Forall (fun ub => entry_shape ub = true) m.
Proof.
  intros P. apply parse_m3u_entries in P.
  eapply Forall_impl; [|exact P]. now intros ub [H _].
Qed.

(** X10. Writing a parsed mapping and parsing the text again gives the same
    mapping: the output of the pipeline is a fixed point of it. *)
Theorem X10_parse_save_parse :
  forall (content : string) (m : entries_t),
    parse_m3u content = Ok m ->
    parse_m3u (save_merged m) = Ok m.
Proof.
  intros content m P. apply parse_saved.
  - exact (parse_m3u_NoDup content m P).
  - exact (parse_m3u_shapes content m P).
  - exact (parse_m3u_no_newline content m P).
Qed.

Lemma X10_witness : parse_m3u (save_merged x_entries) = Ok x_entries.
Proof. exact (X10_parse_save_parse x_doc x_entries eq_refl). Defined.

(** ** The whole run *)

Lemma loaded_sources_parsed (urlopen : string -> option string)
      (sources : list string) :
  forall (i : nat) (name : string) (e : entries_t),
    In (name, e) (loaded_sources urlopen i sources) ->
    exists content, parse_m3u content = Ok e.
Proof.
  induction sources as [|url sources IH]; intros i name e H;
    cbn [loaded_sources] in H; [destruct H|].
  destruct (urlopen url) as [[|c s]|]; try (eapply IH; exact H).
  destruct (parse_m3u (String c s)) as [m| |] eqn:P; try (eapply IH; exact H).
  destruct H as [H|H]; [|eapply IH; exact H].
  injection H as _ <-. now exists (String c s).
Qed.

Lemma merge_m3us_Forall (P : string * list string -> Prop)
      (sources : odict entries_t) :
  (forall name e, In (name, e) sources -> Forall P e) ->
  Forall P (merge_m3us sources).
Proof.
  intros H. apply Forall_forall. intros [k b] Hin.
  rewrite merge_m3us_items in Hin.
  apply first_items_incl, in_concat in Hin as (e & He & Hin).
  apply in_map_iff in He as ([name e'] & <- & Hs).
  specialize (H _ _ Hs). rewrite Forall_forall in H. now apply H.
Qed.

Lemma merged_loaded_shapes (urlopen : string -> option string)
      (sources : list string) (i : nat) :
  Forall (fun ub => entry_shape ub = true
                    /\ Forall (fun l => str_in nl l = false) (entry_lines ub))
         (merge_m3us (loaded_sources urlopen i sources)).
Proof.
  apply merge_m3us_Forall. intros name e Hin.
  apply loaded_sources_parsed in Hin as [content P].
  pose proof (parse_m3u_shapes content e P) as Hs.
  pose proof (parse_m3u_no_newline content e P) as Hl.
  rewrite Forall_flat_map in Hl. rewrite Forall_forall in *.
  intros ub Hub. split; [now apply Hs | now apply Hl].
Qed.

Lemma main_on_output (urlopen : string -> option string)
      (sources : list string) (out : string) :
  main_on urlopen sources = Ok (Some out) ->
  out = save_merged (merge_m3us (loaded_sources urlopen 1 sources)).
Proof.
  rewrite main_on_spec.
  destruct (loaded_sources urlopen 1 sources); intros H; [discriminate|].
  now injection H as <-.
Qed.

(** X11. Parsing the file that a run writes gives back exactly the merged
    mapping of the sources that loaded. *)
Theorem X11_output_parses_to_merged_mapping :
  forall (urlopen : string -> option string) (sources : list string)
         (out : string),
    main_on urlopen sources = Ok (Some out) ->
    parse_m3u out = Ok (merge_m3us (loaded_sources urlopen 1 sources)).
Proof.
  intros urlopen sources out H. apply main_on_output in H. subst out.
  pose proof (merged_loaded_shapes urlopen sources 1) as F.
  apply parse_saved.
  - rewrite merge_m3us_keys. apply remove_later_duplicates_NoDup.
  - eapply Forall_impl; [|exact F]. now intros ub [Hs _].
  - apply Forall_flat_map. eapply Forall_impl; [|exact F]. now intros ub [_ Hl].
Qed.

Lemma X11_witness :
  parse_m3u (save_merged [("http://x/a", [])])
  = Ok (merge_m3us (loaded_sources second_fetch_fails 1 ["a"; "b"])).
Proof.
  exact (X11_output_parses_to_merged_mapping second_fetch_fails ["a"; "b"]
           (save_merged [("http://x/a", [])]) eq_refl).
Defined.

Lemma directive_in_entry (ub : string * list string) (line : string) :
  entry_shape ub = true ->
  In line (entry_lines ub) ->
  startswith "#EXTINF:" line = true ->
  is_excluded_group line = false
  /\ is_excluded_language (extract_title line) = false.
Proof.
  destruct ub as [url block]. intros Hs Hin Hd.
  apply entry_shape_inv in Hs as [Hu Hb].
  unfold entry_lines in Hin. cbn [fst snd] in Hin.
  apply in_app_or in Hin as [Hin|[<-|[]]].
  - destruct Hb as [-> | (d & props & -> & _ & Hg & Hl & Hp)]; [destruct Hin|].
    destruct Hin as [<-|Hin]; [now split|].
    rewrite Forall_forall in Hp. specialize (Hp _ Hin).
    unfold is_prop_line in Hp. rewrite Hd, andb_false_r in Hp. discriminate.
  - unfold is_locator in Hu.
    rewrite (startswith_directive_marker _ Hd), andb_false_r in Hu.
    discriminate.
Qed.

(** X12. No directive line of the file that a run writes is rejected by
    either exclusion test. *)
Theorem X12_output_has_no_excluded_directive :
  forall (urlopen : string -> option string) (sources : list string)
         (out line : string),
    main_on urlopen sources = Ok (Some out) ->
    In line (split nl_char out) ->
    startswith "#EXTINF:" line = true ->
    is_excluded_group line = false
    /\ is_excluded_language (extract_title line) = false.
Proof.
  intros urlopen sources out line H Hin Hd.
  apply main_on_output in H. subst out.
  pose proof (merged_loaded_shapes urlopen sources 1) as F.
  rewrite save_merged_lines in Hin
    by (apply Forall_flat_map; eapply Forall_impl; [|exact F];
        now intros ub [_ Hl]).
  destruct Hin as [<-|Hin]; [discriminate Hd|].
  apply in_app_or in Hin as [Hin|[<-|[]]]; [|discriminate Hd].
  apply in_flat_map in Hin as (ub & Hub & Hl).
  rewrite Forall_forall in F. destruct (F _ Hub) as [Hs _].
  exact (directive_in_entry ub line Hs Hl Hd).
Qed.

Lemma X12_witness :
  is_excluded_group sports_directive = false
  /\ is_excluded_language (extract_title sports_directive) = false.
Proof.
  apply (X12_output_has_no_excluded_directive
           (fun _ => Some x_doc) ["a"] (save_merged x_entries)
           sports_directive eq_refl).
  - right. left. reflexivity.
  - reflexivity.
Defined.

(** ** Source labels *)

Lemma loaded_sources_labels (urlopen : string -> option string)
      (sources : list string) :
  forall (i : nat) (k : string),
    In k (od_keys (loaded_sources urlopen i sources)) ->
    exists j u, i <= j /\ k = source_name j u.
Proof.
  induction sources as [|url sources IH]; intros i k H;
    cbn [loaded_sources] in H; [destruct H|].
  assert (Next : In k (od_keys (loaded_sources urlopen (S i) sources)) ->
                 exists j u, i <= j /\ k = source_name j u).
  { intros H'. destruct (IH _ _ H') as (j & u & Hj & ->).
    exists j, u. split; [lia | reflexivity]. }
  destruct (urlopen url) as [[|c s]|]; auto.
  destruct (parse_m3u (String c s)); auto.
  destruct H as [<-|H]; auto. exists i, url. auto.
Qed.

Lemma loaded_sources_NoDup (urlopen : string -> option string)
      (sources : list string) :
  forall i : nat, NoDup (od_keys (loaded_sources urlopen i sources)).
Proof.
  induction sources as [|url sources IH]; intros i; cbn [loaded_sources];
    [constructor|].
  destruct (urlopen url) as [[|c s]|]; auto.
  destruct (parse_m3u (String c s)); auto.
  cbn [od_keys map fst]. constructor; [|apply IH].
  intros H. apply loaded_sources_labels in H as (j & u & Hj & Heq).
  apply source_name_inj in Heq. lia.
Qed.

Lemma loaded_sources_length (urlopen : string -> option string)
      (sources : list string) :
  forall i : nat,
    List.length (loaded_sources urlopen i sources)
    = List.length (filter (loads urlopen) sources).
Proof.
  induction sources as [|url sources IH]; intros i;
    cbn [loaded_sources filter]; [reflexivity|].
  unfold loads at 1. destruct (urlopen url) as [[|c s]|]; cbn [truthy]; auto.
  destruct (parse_m3u_total (String c s)) as [m ->].
  cbn [List.length]. now rewrite IH.
Qed.

(** X13. Labels built for different positions differ, so the fetch loop
    never overwrites a loaded source: it ends with one entry per source that
    loaded, under distinct labels. *)
Theorem X13_fetch_loop_keeps_every_loaded_source :
  (forall (i j : nat) (u v : string),
      source_name i u = source_name j v -> i = j)
  /\ (forall (urlopen : string -> option string) (sources : list string),
         exists source_entries,
           fetch_loop urlopen 1 sources [] = Ok source_entries
           /\ NoDup (od_keys source_entries)
           /\ List.length source_entries
              = List.length (filter (loads urlopen) sources)).
Proof.
  split; [exact source_name_inj|]. intros urlopen sources.
  exists (loaded_sources urlopen 1 sources).
  rewrite fetch_loop_spec by constructor. cbn [app]. split; [reflexivity|].
  split; [apply loaded_sources_NoDup | apply loaded_sources_length].
Qed.

(** ** The exclusion tests *)

Lemma lower_length (s : string) : String.length (lower s) = String.length s.
Proof. induction s as [|c s IH]; simpl; [reflexivity | now rewrite IH]. Qed.

Lemma append_length (a b : string) :
  String.length (a ++ b) = String.length a + String.length b.
Proof. induction a as [|c a IH]; simpl; [reflexivity | now rewrite IH]. Qed.

Lemma is_excluded_language_iff (title : string) :
  is_excluded_language title = true <->
  exists lang a b,
    In lang EXCLUDE_LANGUAGES /\ lower title = a ++ lang ++ b.
Proof.
  unfold is_excluded_language. rewrite existsb_exists. split.
  - intros (lang & Hl & H). apply str_in_inv in H as (a & b & H).
    now exists lang, a, b.
  - intros (lang & a & b & Hl & H). exists lang. split; [exact Hl|].
    rewrite H. apply str_in_app.
Qed.

(** X14. The language test is a case-insensitive substring test: a title is
    excluded exactly when its lowered text contains a configured token.
    Text around an excluded title never lifts the exclusion, and a title of
    fewer than five characters is never excluded. *)
Theorem X14_language_exclusion_is_substring_test :
  forall title : string,
    (is_excluded_language title = true <->
     exists lang a b,
       In lang EXCLUDE_LANGUAGES /\ lower title = a ++ lang ++ b)
    /\ (forall a b : string,
           is_excluded_language title = true ->
           is_excluded_language (a ++ title ++ b) = true)
    /\ (String.length title < 5 -> is_excluded_language title = false).
Proof.
  intros title. split; [apply is_excluded_language_iff|]. split.
  - intros a b H. apply is_excluded_language_iff in H as (lang & x & y & Hl & H).
    apply is_excluded_language_iff.
    exists lang, (lower a ++ x), (y ++ lower b). split; [exact Hl|].
    rewrite !lower_app, H. now rewrite !append_assoc.
  - intros Hlen. destruct (is_excluded_language title) eqn:E; [|reflexivity].
    apply is_excluded_language_iff in E as (lang & a & b & Hl & H).
    apply (f_equal String.length) in H.
    rewrite lower_length, !append_length in H.
    assert (5 <= String.length lang).
    { repeat (destruct Hl as [<-|Hl]; [simpl; lia|]). destruct Hl. }
    lia.
Qed.

Lemma X14_witness :
  is_excluded_language ("Star " ++ "TAMIL" ++ "nadu HD") = true.
Proof.
  exact (proj1 (proj2 (X14_language_exclusion_is_substring_test "TAMIL"))
           "Star " "nadu HD" eq_refl).
Defined.

(** X15. The category test ignores the case of the whole attribute and its
    surroundings: a line that carries the attribute text of an excluded
    category in any letter case, anywhere, is excluded; text around an
    excluded line never lifts the exclusion. *)
Theorem X15_category_exclusion_any_case_anywhere :
  (forall a key value b : string,
      lower key = "group-title=" ->
      In (lower value) EXCLUDED_GROUPS ->
      is_excluded_group (a ++ key ++ dquote ++ value ++ dquote ++ b) = true)
  /\ (forall line a b : string,
         is_excluded_group line = true ->
         is_excluded_group (a ++ line ++ b) = true).
Proof.
  split.
  - intros a key value b Hk Hv. apply is_excluded_group_iff.
    exists (lower value), (lower a), (lower b). split; [exact Hv|].
    rewrite !lower_app, Hk, lower_dquote. now rewrite !append_assoc.
  - intros line a b H.
    apply is_excluded_group_iff in H as (g & x & y & Hg & H).
    apply is_excluded_group_iff.
    exists g, (lower a ++ x), (y ++ lower b). split; [exact Hg|].
    rewrite !lower_app, H. now rewrite !append_assoc.
Qed.

Lemma X15_witness :
  is_excluded_group ("#EXTINF:-1 " ++ "GROUP-Title=" ++ dquote ++ "MUSIC"
                     ++ dquote ++ ",Radio")
  = true.
Proof.
  exact (proj1 X15_category_exclusion_any_case_anywhere
           "#EXTINF:-1 " "GROUP-Title=" "MUSIC" ",Radio" eq_refl
           (or_intror (or_introl eq_refl))).
Defined.

Lemma lower_idem_char (c : ascii) : lower_char (lower_char c) = lower_char c.
Proof. destruct c as [[] [] [] [] [] [] [] []]; reflexivity. Qed.

Lemma lower_idem (s : string) : lower (lower s) = lower s.
Proof.
  induction s as [|c s IH]; simpl; [reflexivity|].
  now rewrite lower_idem_char, IH.
Qed.

Lemma match_value_no_quote (s v : string) :
  match_value s = Some v -> str_in dquote (lower v) = false.
Proof.
  revert v; induction s as [|c s IH]; intros v H; simpl in H; [discriminate|].
  destruct (Ascii.eqb c "034") eqn:E.
  - now injection H as <-.
  - destruct (match_value s) as [w|]; [|discriminate].
    injection H as <-. specialize (IH _ eq_refl).
    cbn [lower str_in startswith dquote]. 
    destruct (Ascii.eqb "034" (lower_char c)) eqn:Q.
    + apply Ascii.eqb_eq in Q. symmetry in Q. apply lower_char_dquote in Q.
      subst c. discriminate E.
    + cbn [andb orb]. destruct (lower w); exact IH.
Qed.

Lemma search_group_title_value (s v : string) :
  search_group_title s = Some v -> str_in dquote (lower v) = false.
Proof.
  induction s as [|c s IH]; intros H.
  - simpl in H. discriminate.
  - cbn [search_group_title] in H.
    destruct (match_group_title_here (String c s)) as [w|] eqn:E; [|auto].
    injection H as ->. unfold match_group_title_here in E.
    destruct (match_literal_ci group_title_pat (String c s)); [|discriminate].
    now apply match_value_no_quote in E.
Qed.

Lemma match_value_exact (v rest : string) :
  str_in dquote v = false -> match_value (v ++ dquote ++ rest) = Some v.
Proof.
  induction v as [|c v IH]; intros H; [reflexivity|].
  cbn [str_in startswith dquote] in H.
  apply orb_false_iff in H as [Hc Hv]. rewrite andb_true_r in Hc.
  cbn [append match_value]. rewrite Ascii.eqb_sym, Hc.
  rewrite IH; [reflexivity|]. destruct v; exact Hv.
Qed.

Lemma str_in_gr_cons (c : ascii) (s : string) :
  str_in "gr" (lower (String c s)) = false ->
  startswith "gr" (lower (String c s)) = false
  /\ str_in "gr" (lower s) = false.
Proof.
  cbn [lower str_in]. intros H. apply orb_false_iff in H as [H1 H2].
  split; [exact H1|]. destruct (lower s); exact H2.
Qed.

(** No match of the category pattern starts in a text without the letters
    g and r in a row, when what follows starts with the letter g. *)
Lemma search_group_title_skip (pre : string) :
  forall (k0 : ascii) (tail : string),
    str_in "gr" (lower pre) = false ->
    lower_char k0 = "g"%char ->
    search_group_title (pre ++ String k0 tail)
    = search_group_title (String k0 tail).
Proof.
  induction pre as [|c pre IH]; intros k0 tail H Hk; [reflexivity|].
  apply str_in_gr_cons in H as [Hh Hs].
  change (search_group_title (String c pre ++ String k0 tail))
    with (match match_group_title_here (String c (pre ++ String k0 tail)) with
          | Some w => Some w
          | None => search_group_title (pre ++ String k0 tail)
          end).
  assert (N : match_group_title_here (String c (pre ++ String k0 tail)) = None).
  { unfold match_group_title_here, group_title_pat, dquote.
    cbn [append match_literal_ci].
    destruct (Ascii.eqb (lower_char c) "g") eqn:G; [|reflexivity].
    apply Ascii.eqb_eq in G.
    destruct pre as [|c' pre'].
    - cbn [append]. rewrite Hk. reflexivity.
    - cbn [append]. cbn [lower startswith] in Hh. rewrite G in Hh.
      cbn [Ascii.eqb] in Hh.
      destruct (Ascii.eqb (lower_char c') "r") eqn:R; [|reflexivity].
      apply Ascii.eqb_eq in R. rewrite R in Hh. discriminate Hh. }
  rewrite N. now apply IH.
Qed.

(** X16. The category that [get_group_title] returns is in lower case and
    holds no quote.  On a line that carries the attribute (its key in any
    letter case, its value without a quote) after a text in which the
    letters g and r never stand in a row, it is the lowered value of that
    attribute. *)
Theorem X16_get_group_title_value :
  forall line : string,
    lower (get_group_title line) = get_group_title line
    /\ str_in dquote (get_group_title line) = false
    /\ (forall pre key value rest : string,
           line = pre ++ key ++ dquote ++ value ++ dquote ++ rest ->
           lower key = "group-title=" ->
           str_in dquote value = false ->
           str_in "gr" (lower pre) = false ->
           get_group_title line = lower value).
Proof.
  intros line. split; [|split].
  - unfold get_group_title.
    destruct (search_group_title line); [apply lower_idem | reflexivity].
  - unfold get_group_title.
    destruct (search_group_title line) as [v|] eqn:E; [|reflexivity].
    exact (search_group_title_value _ _ E).
  - intros pre key value rest -> Hk Hv Hp. unfold get_group_title.
    destruct key as [|k0 key]; [discriminate Hk|].
    assert (Hk0 : lower_char k0 = "g"%char) by (now injection Hk).
    cbn [append]. rewrite (search_group_title_skip pre k0 _ Hp Hk0).
    assert (Here : match_group_title_here
                     (String k0 (key ++ dquote ++ value ++ dquote ++ rest))
                   = Some value).
    { unfold match_group_title_here.
      replace group_title_pat with (lower (String k0 key ++ dquote))
        by (rewrite lower_app, Hk; reflexivity).
      replace (String k0 (key ++ dquote ++ value ++ dquote ++ rest))
        with ((String k0 key ++ dquote) ++ value ++ dquote ++ rest)
        by (rewrite append_assoc; reflexivity).
      rewrite match_literal_ci_app. now apply match_value_exact. }
    cbn [search_group_title]. now rewrite Here.
Qed.

Lemma X16_witness :
  get_group_title ("#EXTINF:-1 tvg-id=x " ++ "Group-Title=" ++ dquote
                   ++ "Sports HD" ++ dquote ++ ",ESPN")
  = lower "Sports HD".
Proof.
  exact (proj2 (proj2 (X16_get_group_title_value _))
           "#EXTINF:-1 tvg-id=x " "Group-Title=" "Sports HD" ",ESPN"
           eq_refl eq_refl eq_refl eq_refl).
Defined.

(** ** Documents of bare locators *)

Lemma not_marked_not_directive (l : string) :
  startswith "#" l = false -> startswith "#EXTINF:" l = false.
Proof.
  intros H. destruct (startswith "#EXTINF:" l) eqn:D; [|reflexivity].
  apply startswith_directive_marker in D. congruence.
Qed.

Lemma parse_loop_plain (rest : list string) :
  forall (pre : list string) (E : entries_t) (fuel : nat),
    Forall (fun l => startswith "#" l = false) rest ->
    List.length rest < fuel ->
    parse_loop fuel (pre ++ rest) (List.length pre, E)
    = Ok (merge_source E (map (fun u => (u, [])) (filter truthy rest))).
Proof.
  induction rest as [|x rest IH]; intros pre E fuel Hr Hf;
    (destruct fuel as [|f]; [simpl in Hf; lia|]).
  - cbn [parse_loop fst snd]. now rewrite ltb_end.
  - inversion Hr as [|? ? Hx Hr']; subst.
    assert (B : loop_body (pre ++ x :: rest) (List.length pre, E)
                = Ok (S (List.length pre),
                      if truthy x then od_add_new x [] E else E)).
    { unfold loop_body. rewrite getitem_mid. cbn [bind].
      rewrite (not_marked_not_directive x Hx), Hx. cbn [negb].
      rewrite andb_true_r. now destruct (truthy x). }
    rewrite (parse_loop_step _ _ _ _ _ (length_mid pre x rest) B).
    specialize (IH (pre ++ [x])%list
                   (if truthy x then od_add_new x [] E else E) f Hr').
    rewrite <- app_assoc, length_app in IH. cbn [app List.length] in IH.
    replace (List.length pre + 1) with (S (List.length pre)) in IH by lia.
    rewrite IH by (simpl in Hf; lia).
    cbn [filter]. now destruct (truthy x).
Qed.

Lemma filter_map_plain (k : string) (ks : list string) :
  filter (fun ub : string * list string => negb (String.eqb k (fst ub)))
         (map (fun u => (u, [])) ks)
  = map (fun u => (u, [])) (filter (fun y => negb (String.eqb k y)) ks).
Proof.
  induction ks as [|y ks IH]; simpl; [reflexivity|].
  destruct (String.eqb k y); simpl; now rewrite IH.
Qed.

Lemma first_items_plain (ks : list string) :
  first_items (map (fun u => (u, [])) ks)
  = map (fun u => (u, [])) (remove_later_duplicates ks).
Proof.
  induction ks as [|k ks IH]; [reflexivity|].
  cbn [map first_items remove_later_duplicates]. f_equal.
  now rewrite IH, filter_map_plain.
Qed.

(** X17. A document in which no line starts with the marker parses to its
    distinct non-empty lines, in the order of their first occurrence, each
    with an empty block. *)
Theorem X17_plain_document :
  forall content : string,
    Forall (fun l => startswith "#" l = false) (split nl_char content) ->
    parse_m3u content
    = Ok (map (fun u => (u, []))
              (remove_later_duplicates
                 (filter truthy (split nl_char content)))).
Proof.
  intros content H. rewrite parse_m3u_unfold.
  rewrite (parse_loop_plain (split nl_char content) [] [] _ H) by lia.
  rewrite merge_source_items. cbn [app od_mem negb].
  now rewrite filter_all, first_items_plain.
Qed.

Lemma X17_witness :
  parse_m3u (join_lines ["http://x/a"; EmptyString; "http://x/b"; "http://x/a"])
  = Ok [("http://x/a", []); ("http://x/b", [])].
Proof.
  apply (X17_plain_document
           (join_lines ["http://x/a"; EmptyString; "http://x/b"; "http://x/a"])).
  repeat constructor.
Defined.

(** ** Lines before the first entry *)

Lemma skip_loop_enough (f1 : nat) (lines : list string) :
  forall (f2 i : nat),
    List.length lines - i < f1 -> List.length lines - i < f2 ->
    skip_loop f1 lines i = skip_loop f2 lines i.
Proof.
  induction f1 as [|f1 IH]; intros f2 i H1 H2; [lia|].
  destruct f2 as [|f2]; [lia|]. cbn [skip_loop].
  destruct (Nat.ltb i (List.length lines)) eqn:L; [|reflexivity].
  apply Nat.ltb_lt in L.
  destruct (getitem lines i) as [l| |]; cbn [bind]; try reflexivity.
  destruct (skippable l); [|reflexivity]. apply IH; lia.
Qed.

Lemma collect_loop_enough (f1 : nat) (lines : list string) :
  forall (f2 i : nat) (block : list string),
    List.length lines - i < f1 -> List.length lines - i < f2 ->
    collect_loop f1 lines i block = collect_loop f2 lines i block.
Proof.
  induction f1 as [|f1 IH]; intros f2 i block H1 H2; [lia|].
  destruct f2 as [|f2]; [lia|]. cbn [collect_loop].
  destruct (Nat.ltb i (List.length lines)) eqn:L; [|reflexivity].
  apply Nat.ltb_lt in L.
  destruct (getitem lines i) as [l| |]; cbn [bind]; try reflexivity.
  destruct (is_prop_line l); [|reflexivity]. apply IH; lia.
Qed.

Lemma getitem_shift (pre rest : list string) (i : nat) :
  getitem (pre ++ rest) (List.length pre + i) = getitem rest i.
Proof.
  unfold getitem. rewrite nth_error_app2 by lia.
  now replace (List.length pre + i - List.length pre) with i by lia.
Qed.

Lemma ltb_shift (pre rest : list string) (i : nat) :
  Nat.ltb (List.length pre + i) (List.length (pre ++ rest))
  = Nat.ltb i (List.length rest).
Proof.
  rewrite length_app.
  destruct (Nat.ltb i (List.length rest)) eqn:L.
  - apply Nat.ltb_lt in L. apply Nat.ltb_lt. lia.
  - apply Nat.ltb_ge in L. apply Nat.ltb_ge. lia.
Qed.

Lemma skip_loop_shift (fuel : nat) (pre rest : list string) :
  forall i : nat,
    skip_loop fuel (pre ++ rest) (List.length pre + i)
    = match skip_loop fuel rest i with
      | Ok i' => Ok (List.length pre + i')
      | IndexError => IndexError
      | OutOfFuel => OutOfFuel
      end.
Proof.
  induction fuel as [|f IH]; intros i; cbn [skip_loop]; [reflexivity|].
  rewrite ltb_shift, getitem_shift.
  destruct (Nat.ltb i (List.length rest)); [|reflexivity].
  destruct (getitem rest i) as [l| |]; cbn [bind]; try reflexivity.
  destruct (skippable l); [|reflexivity].
  replace (S (List.length pre + i)) with (List.length pre + S i) by lia.
  apply IH.
Qed.

Lemma collect_loop_shift (fuel : nat) (pre rest : list string) :
  forall (i : nat) (block : list string),
    collect_loop fuel (pre ++ rest) (List.length pre + i) block
    = shift_index (List.length pre) (collect_loop fuel rest i block).
Proof.
  induction fuel as [|f IH]; intros i block; cbn [collect_loop];
    [reflexivity|].
  rewrite ltb_shift, getitem_shift.
  destruct (Nat.ltb i (List.length rest)); [|reflexivity].
  destruct (getitem rest i) as [l| |]; cbn [bind]; try reflexivity.
  destruct (is_prop_line l); [|reflexivity].
  replace (S (List.length pre + i)) with (List.length pre + S i) by lia.
  apply IH.
Qed.

Lemma skip_block_shift (pre rest : list string) (i : nat) :
  skip_block (inner_fuel (pre ++ rest)) (pre ++ rest) (List.length pre + i)
  = match skip_block (inner_fuel rest) rest i with
    | Ok i' => Ok (List.length pre + i')
    | IndexError => IndexError
    | OutOfFuel => OutOfFuel
    end.
Proof.
  unfold skip_block, inner_fuel.
  replace (S (List.length pre + i)) with (List.length pre + S i) by lia.
  rewrite skip_loop_shift.
  rewrite (skip_loop_enough (S (List.length (pre ++ rest))) rest
             (S (List.length rest)) (S i))
    by (rewrite ?length_app; lia).
  destruct (skip_loop (S (List.length rest)) rest (S i)) as [i1| |];
    cbn [bind]; try reflexivity.
  rewrite ltb_shift, getitem_shift.
  destruct (Nat.ltb i1 (List.length rest)); [|reflexivity].
  destruct (getitem rest i1) as [l| |]; cbn [bind]; try reflexivity.
  destruct (negb (startswith "#" l)); [|reflexivity].
  f_equal. lia.
Qed.

(** An iteration reads only the lines from its index on. *)
Lemma loop_body_shift (pre rest : list string) (i : nat) (E : entries_t) :
  loop_body (pre ++ rest) (List.length pre + i, E)
  = shift_index (List.length pre) (loop_body rest (i, E)).
Proof.
  unfold loop_body. rewrite getitem_shift.
  destruct (getitem rest i) as [line| |]; cbn [bind shift_index];
    try reflexivity.
  destruct (startswith "#EXTINF:" line).
  - rewrite skip_block_shift.
    destruct (is_excluded_group line).
    { destruct (skip_block (inner_fuel rest) rest i); reflexivity. }
    destruct (is_excluded_language (extract_title line)).
    { destruct (skip_block (inner_fuel rest) rest i); reflexivity. }
    replace (S (List.length pre + i)) with (List.length pre + S i) by lia.
    unfold inner_fuel. rewrite collect_loop_shift.
    rewrite (collect_loop_enough (S (List.length (pre ++ rest))) rest
               (S (List.length rest)) (S i))
      by (rewrite ?length_app; lia).
    destruct (collect_loop (S (List.length rest)) rest (S i) [line])
      as [[i1 block]| |]; cbn [bind shift_index]; try reflexivity.
    rewrite ltb_shift, getitem_shift.
    destruct (Nat.ltb i1 (List.length rest));
      [|cbn [shift_index]; f_equal; f_equal; lia].
    destruct (getitem rest i1) as [url| |]; cbn [bind shift_index];
      try reflexivity.
    destruct (truthy url && negb (startswith "#" url));
      cbn [shift_index]; f_equal; f_equal; lia.
  - destruct (truthy line && negb (startswith "#" line));
      cbn [shift_index]; f_equal; f_equal; lia.
Qed.

Lemma parse_loop_shift (fuel : nat) (pre rest : list string) :
  forall (i : nat) (E : entries_t),
    parse_loop fuel (pre ++ rest) (List.length pre + i, E)
    = parse_loop fuel rest (i, E).
Proof.
  induction fuel as [|f IH]; intros i E; cbn [parse_loop fst snd];
    [reflexivity|].
  rewrite ltb_shift, loop_body_shift.
  destruct (Nat.ltb i (List.length rest)); [|reflexivity].
  destruct (loop_body rest (i, E)) as [[i1 E1]| |]; cbn [bind shift_index];
    try reflexivity.
  apply IH.
Qed.

Lemma parse_loop_enough (f1 : nat) (lines : list string) :
  forall (f2 i : nat) (E : entries_t),
    List.length lines - i < f1 -> List.length lines - i < f2 ->
    parse_loop f1 lines (i, E) = parse_loop f2 lines (i, E).
Proof.
  induction f1 as [|f1 IH]; intros f2 i E H1 H2; [lia|].
  destruct f2 as [|f2]; [lia|]. cbn [parse_loop fst snd].
  destruct (Nat.ltb i (List.length lines)) eqn:L; [|reflexivity].
  apply Nat.ltb_lt in L.
  destruct (loop_body lines (i, E)) as [[i1 E1]| |] eqn:B; cbn [bind];
    try reflexivity.
  apply loop_body_shape in B as [Hlt _]. apply IH; lia.
Qed.

Lemma ignorable_step (pre : list string) (h : string) (post : list string)
      (E : entries_t) :
  ignorable h = true ->
  loop_body (pre ++ h :: post) (List.length pre, E)
  = Ok (S (List.length pre), E).
Proof.
  unfold ignorable, is_locator. intros H.
  apply andb_true_iff in H as [H1 H2]. apply negb_true_iff in H1, H2.
  unfold loop_body. rewrite getitem_mid. cbn [bind]. now rewrite H1, H2.
Qed.

(** X18. A first line that is neither a directive nor a locator (the
    document header, a comment, an empty line) has no effect on the parsed
    mapping. *)
Theorem X18_leading_line_is_ignored :
  forall h content : string,
    ignorable h = true ->
    str_in nl h = false ->
    parse_m3u (h ++ nl ++ content) = parse_m3u content.
Proof.
  intros h content Hi Hn. rewrite !parse_m3u_unfold, (split_line h content Hn).
  rewrite (parse_loop_step _ _ 0 [] (1, []));
    [| simpl; lia | exact (ignorable_step [] h _ [] Hi)].
  rewrite (parse_loop_shift _ [h] (split nl_char content) 0 []).
  apply parse_loop_enough; cbn [List.length]; lia.
Qed.

Lemma X18_witness :
  parse_m3u ("#EXTM3U" ++ nl ++ x_doc) = parse_m3u x_doc.
Proof.
  exact (X18_leading_line_is_ignored "#EXTM3U" x_doc eq_refl eq_refl).
Defined.

(** ** A final newline *)

Lemma split_not_nil (sep : ascii) (s : string) : split sep s <> [].
Proof.
  destruct s as [|c s]; cbn [split]; [discriminate|].
  destruct (Ascii.eqb c sep); [discriminate|].
  destruct (split sep s); discriminate.
Qed.

Lemma split_app_nl (s : string) :
  split nl_char (s ++ nl) = (split nl_char s ++ [EmptyString])%list.
Proof.
  induction s as [|c s IH]; [reflexivity|].
  cbn [append split]. rewrite IH.
  destruct (Ascii.eqb c nl_char); [reflexivity|].
  pose proof (split_not_nil nl_char s) as N.
  destruct (split nl_char s); [now destruct N | reflexivity].
Qed.

Lemma getitem_app1 (lines extra : list string) (i : nat) :
  i < List.length lines -> getitem (lines ++ extra) i = getitem lines i.
Proof. intros H. unfold getitem. now rewrite nth_error_app1. Qed.

Lemma ltb_app1 (lines extra : list string) (i : nat) :
  i < List.length lines ->
  Nat.ltb i (List.length (lines ++ extra)) = true.
Proof. intros H. apply Nat.ltb_lt. rewrite length_app. lia. Qed.

Lemma skip_loop_ext (f : nat) (lines : list string) :
  forall (i j f' : nat),
    skip_loop f lines i = Ok j ->
    i <= List.length lines ->
    List.length lines + 1 - i < f' ->
    skip_loop f' (lines ++ [EmptyString]) i
    = Ok (if Nat.ltb j (List.length lines) then j else S (List.length lines)).
Proof.
  induction f as [|f IH]; intros i j f' H Hi Hf'; [discriminate|].
  destruct f' as [|f']; [lia|]. cbn [skip_loop] in *.
  destruct (Nat.ltb i (List.length lines)) eqn:L.
  - apply Nat.ltb_lt in L.
    rewrite (ltb_app1 _ _ _ L), (getitem_app1 _ _ _ L).
    destruct (getitem lines i) as [l| |]; cbn [bind] in *; try discriminate.
    destruct (skippable l).
    + apply (IH _ _ _ H); lia.
    + injection H as <-. apply Nat.ltb_lt in L. now rewrite L.
  - injection H as <-. rewrite L. apply Nat.ltb_ge in L.
    assert (i = List.length lines) by lia. subst i.
    rewrite ltb_mid, getitem_mid. cbn [bind].
    change (skippable EmptyString) with true. cbn iota.
    destruct f' as [|f']; [lia|]. cbn [skip_loop].
    replace (Nat.ltb (S (List.length lines))
                     (List.length (lines ++ [EmptyString]))) with false;
      [reflexivity|].
    symmetry. apply Nat.ltb_ge. rewrite length_app. simpl. lia.
Qed.

Lemma skip_loop_le (f : nat) (lines : list string) :
  forall i j : nat,
    skip_loop f lines i = Ok j -> i <= List.length lines ->
    j <= List.length lines.
Proof.
  induction f as [|f IH]; intros i j H Hi; [discriminate|].
  cbn [skip_loop] in H.
  destruct (Nat.ltb i (List.length lines)) eqn:L;
    [|injection H as <-; exact Hi].
  apply Nat.ltb_lt in L.
  destruct (getitem lines i) as [l| |]; cbn [bind] in H; try discriminate.
  destruct (skippable l); [|injection H as <-; exact Hi].
  apply (IH _ _ H). lia.
Qed.

Lemma collect_loop_ext (f : nat) (lines : list string) :
  forall (i : nat) (block : list string) (r : nat * list string) (f' : nat),
    collect_loop f lines i block = Ok r ->
    i <= List.length lines ->
    List.length lines + 1 - i < f' ->
    collect_loop f' (lines ++ [EmptyString]) i block = Ok r.
Proof.
  induction f as [|f IH]; intros i block r f' H Hi Hf'; [discriminate|].
  destruct f' as [|f']; [lia|]. cbn [collect_loop] in *.
  destruct (Nat.ltb i (List.length lines)) eqn:L.
  - apply Nat.ltb_lt in L.
    rewrite (ltb_app1 _ _ _ L), (getitem_app1 _ _ _ L).
    destruct (getitem lines i) as [l| |]; cbn [bind] in *; try discriminate.
    destruct (is_prop_line l); [|exact H].
    apply (IH _ _ _ _ H); lia.
  - apply Nat.ltb_ge in L.
    assert (i = List.length lines) by lia. subst i.
    rewrite ltb_mid, getitem_mid. cbn [bind]. exact H.
Qed.

Lemma collect_loop_le (f : nat) (lines : list string) :
  forall (i : nat) (block : list string) (j : nat) (block' : list string),
    collect_loop f lines i block = Ok (j, block') ->
    i <= List.length lines -> j <= List.length lines.
Proof.
  induction f as [|f IH]; intros i block j block' H Hi; [discriminate|].
  cbn [collect_loop] in H.
  destruct (Nat.ltb i (List.length lines)) eqn:L;
    [|injection H as <- _; exact Hi].
  apply Nat.ltb_lt in L.
  destruct (getitem lines i) as [l| |]; cbn [bind] in H; try discriminate.
  destruct (is_prop_line l); [|injection H as <- _; exact Hi].
  apply (IH _ _ _ _ H). lia.
Qed.

(** An iteration on the document with one more, empty, last line stores the
    same and ends at the same index, or both end past the last line. *)
Lemma loop_body_ext (lines : list string) (i : nat) (E : entries_t)
      (i1 : nat) (E1 : entries_t) :
  i < List.length lines ->
  loop_body lines (i, E) = Ok (i1, E1) ->
  exists i2,
    loop_body (lines ++ [EmptyString]) (i, E) = Ok (i2, E1)
    /\ (i2 = i1 \/ (i1 = List.length lines /\ i2 = S (List.length lines))).
Proof.
  intros Hi H. unfold loop_body in *.
  rewrite (getitem_app1 _ _ _ Hi).
  destruct (getitem lines i) as [line| |]; cbn [bind] in *; try discriminate.
  assert (SB : forall i1,
             skip_block (inner_fuel lines) lines i = Ok i1 ->
             exists i2,
               skip_block (inner_fuel (lines ++ [EmptyString]))
                          (lines ++ [EmptyString]) i = Ok i2
               /\ (i2 = i1 \/
                   (i1 = List.length lines /\ i2 = S (List.length lines)))).
  { clear H. intros i1' H. unfold skip_block, inner_fuel in *.
    destruct (skip_loop (S (List.length lines)) lines (S i)) as [j| |] eqn:SL;
      cbn [bind] in H; try discriminate.
    pose proof (skip_loop_le _ _ _ _ SL ltac:(lia)) as Hj.
    rewrite (skip_loop_ext _ _ _ _ (S (List.length (lines ++ [EmptyString])))
               SL ltac:(lia))
      by (rewrite length_app; simpl; lia).
    cbn [bind]. destruct (Nat.ltb j (List.length lines)) eqn:L.
    - apply Nat.ltb_lt in L.
      rewrite (ltb_app1 _ _ _ L), (getitem_app1 _ _ _ L).
      destruct (getitem lines j) as [l| |]; cbn [bind] in *; try discriminate.
      destruct (negb (startswith "#" l)); injection H as <-; eauto.
    - injection H as <-. apply Nat.ltb_ge in L.
      replace (Nat.ltb (S (List.length lines))
                       (List.length (lines ++ [EmptyString]))) with false
        by (symmetry; apply Nat.ltb_ge; rewrite length_app; simpl; lia).
      eexists. split; [reflexivity|]. right. split; [lia | reflexivity]. }
  destruct (startswith "#EXTINF:" line).
  - destruct (is_excluded_group line).
    { destruct (skip_block (inner_fuel lines) lines i) as [i1'| |] eqn:S1;
        cbn [bind] in H; try discriminate.
      injection H as <- <-. destruct (SB _ eq_refl) as (i2 & -> & Hi2).
      cbn [bind]. eauto. }
    destruct (is_excluded_language (extract_title line)).
    { destruct (skip_block (inner_fuel lines) lines i) as [i1'| |] eqn:S1;
        cbn [bind] in H; try discriminate.
      injection H as <- <-. destruct (SB _ eq_refl) as (i2 & -> & Hi2).
      cbn [bind]. eauto. }
    clear SB. unfold inner_fuel in *.
    destruct (collect_loop (S (List.length lines)) lines (S i) [line])
      as [[j block]| |] eqn:C; cbn [bind] in H; try discriminate.
    pose proof (collect_loop_le _ _ _ _ _ _ C ltac:(lia)) as Hj.
    rewrite (collect_loop_ext _ _ _ _ _
               (S (List.length (lines ++ [EmptyString]))) C ltac:(lia))
      by (rewrite length_app; simpl; lia).
    cbn [bind]. destruct (Nat.ltb j (List.length lines)) eqn:L.
    + apply Nat.ltb_lt in L.
      rewrite (ltb_app1 _ _ _ L), (getitem_app1 _ _ _ L).
      destruct (getitem lines j) as [url| |]; cbn [bind] in *;
        try discriminate.
      destruct (truthy url && negb (startswith "#" url));
        injection H as <- <-; eauto.
    + injection H as <- <-. apply Nat.ltb_ge in L.
      assert (j = List.length lines) by lia. subst j.
      rewrite ltb_mid, getitem_mid. cbn [bind truthy andb].
      exists (S (List.length lines)). split; [reflexivity | now left].
  - destruct (truthy line && negb (startswith "#" line));
      injection H as <- <-; eauto.
Qed.

Lemma parse_loop_past_end (fuel : nat) (lines : list string) (i : nat)
      (E : entries_t) :
  List.length lines <= i -> parse_loop (S fuel) lines (i, E) = Ok E.
Proof.
  intros H. cbn [parse_loop fst snd].
  apply Nat.ltb_ge in H. now rewrite H.
Qed.

Lemma parse_loop_ext (n : nat) (lines : list string) :
  forall (i : nat) (E : entries_t) (f f' : nat),
    List.length lines - i <= n ->
    i <= List.length lines ->
    List.length lines - i < f ->
    List.length lines + 1 - i < f' ->
    parse_loop f' (lines ++ [EmptyString]) (i, E) = parse_loop f lines (i, E).
Proof.
  induction n as [|n IH]; intros i E f f' Hn Hi Hf Hf'.
  - assert (i = List.length lines) by lia. subst i.
    destruct f as [|f]; [lia|]. rewrite parse_loop_past_end by lia.
    destruct f' as [|[|f']]; [lia | lia |].
    rewrite (parse_loop_step _ _ _ _ _ (length_mid lines _ [])
               (empty_line_step lines [] E)).
    apply parse_loop_past_end. rewrite length_app. simpl. lia.
  - destruct (Nat.eq_dec i (List.length lines)) as [->|Hne];
      [apply (IH _ E f f'); lia|].
    assert (Hlt : i < List.length lines) by lia.
    destruct (loop_body_total lines i E Hlt) as [[i1 E1] B].
    pose proof (loop_body_shape _ _ _ _ _ B) as [Hgt _].
    destruct (loop_body_ext lines i E i1 E1 Hlt B) as (i2 & B2 & Hi2).
    destruct f as [|f]; [lia|]. destruct f' as [|f']; [lia|].
    rewrite (parse_loop_step _ _ _ _ _ Hlt B).
    rewrite (parse_loop_step _ _ _ _ _
               (ltac:(rewrite length_app; lia)
                 : i < List.length (lines ++ [EmptyString])) B2).
    destruct (Nat.le_gt_cases i1 (List.length lines)) as [Hle|Hover].
    + destruct Hi2 as [->|[-> ->]].
      * apply IH; lia.
      * destruct f as [|f]; [lia|]. destruct f' as [|f']; [lia|].
        rewrite !parse_loop_past_end; [reflexivity | lia |].
        rewrite length_app. simpl. lia.
    + destruct Hi2 as [->|[-> _]]; [|lia].
      destruct f as [|f]; [lia|]. destruct f' as [|f']; [lia|].
      rewrite !parse_loop_past_end;
        [reflexivity | lia | rewrite length_app; simpl; lia].
Qed.

(** X19. A newline added at the end of a document does not change the
    parsed mapping. *)
Theorem X19_final_newline_is_ignored :
  forall content : string,
    parse_m3u (content ++ nl) = parse_m3u content.
Proof.
  intros content. rewrite !parse_m3u_unfold, split_app_nl.
  apply (parse_loop_ext (List.length (split nl_char content))); try lia.
  rewrite length_app. simpl. lia.
Qed.

(** ** Documents made of whole blocks *)









